(** * wordpress-export-to-markdown: the extraction-and-merge pipeline of [src/parser.js]

    A shallow embedding of [parser.js] and the properties of its
    specification.  JavaScript values are modelled by a small universe of
    primitives, exceptions by a result type, [console.log] by an output
    buffer threaded through the stages, and the in-place mutation done by
    [mergeImagesIntoPosts] by an explicit store of post objects addressed by
    their index in the [posts] array.

    Strings are sequences of 8-bit code units (the Latin-1 range of
    JavaScript's UTF-16 strings). *)

From Stdlib Require Import ZArith Ascii String Lia.
From stdpp Require Import base tactics option list strings gmap pretty.

Local Open Scope string_scope.
Local Open Scope list_scope.

(** The double quote, as a character and as a string. *)
Definition quote : ascii := "034"%char.
Definition dq : string := String quote "".

(** ** JavaScript values and exceptions *)

Inductive value :=
| VUndefined
| VNull
| VString (s : string)
| VNumber (n : Z).

#[global] Instance value_eq_dec : EqDecision value.
Proof. solve_decision. Defined.

(** [a === b] on the values above; also the SameValueZero comparison of
    [Array.prototype.includes] (no NaN is ever produced here). *)
Definition strict_eq (a b : value) : bool := bool_decide (a = b).

(** ToBoolean. *)
Definition truthy (v : value) : bool :=
  match v with
  | VUndefined | VNull => false
  | VString s => negb (bool_decide (s = ""))
  | VNumber n => negb (bool_decide (n = 0%Z))
  end.

(** ToPropertyKey of a primitive: the string used as an object key. *)
Definition toPropertyKey (v : value) : string :=
  match v with
  | VUndefined => "undefined"
  | VNull => "null"
  | VString s => s
  | VNumber n => pretty n
  end.

(** [Array.prototype.includes] on an array of strings. *)
Definition includes_str (a : list string) (v : value) : bool :=
  match v with
  | VString s => bool_decide (s ∈ a)
  | _ => false
  end.

(** [Array.prototype.includes] on an array of values. *)
Definition includes (a : list value) (v : value) : bool := bool_decide (v ∈ a).

Inductive Exn :=
| TypeError      (* a JavaScript TypeError *)
| Unmodelled.    (* the input leaves the fragment of a platform function that is modelled *)

Inductive Result (A : Type) :=
| Ok (a : A)
| Throw (e : Exn).
Arguments Ok {A} a.
Arguments Throw {A} e.

Definition bind {A B} (r : Result A) (k : A -> Result B) : Result B :=
  match r with
  | Ok a => k a
  | Throw e => Throw e
  end.

Declare Scope result_scope.
Delimit Scope result_scope with result.
Notation "x <- e ;; k" := (bind e (fun x => k))
  (at level 100, e at next level, right associativity) : result_scope.
Local Open Scope result_scope.

(** [a.filter(f)], [a.map(f)] and [a.find(f)] with a callback that may throw. *)
Fixpoint filterM {A} (f : A -> Result bool) (l : list A) : Result (list A) :=
  match l with
  | [] => Ok []
  | x :: l' =>
      b <- f x ;;
      r <- filterM f l' ;;
      Ok (if b : bool then x :: r else r)
  end.

Fixpoint mapM_ {A B} (f : A -> Result B) (l : list A) : Result (list B) :=
  match l with
  | [] => Ok []
  | x :: l' =>
      y <- f x ;;
      r <- mapM_ f l' ;;
      Ok (y :: r)
  end.

Fixpoint findM {A} (f : A -> Result bool) (l : list A) : Result (option A) :=
  match l with
  | [] => Ok None
  | x :: l' =>
      b <- f x ;;
      if b : bool then Ok (Some x) else findM f l'
  end.

(** The console: the lines written by [console.log], oldest first.  A stage
    of the pipeline takes the buffer and returns its result with the buffer
    it leaves; an exception leaves what was written before it. *)
Definition Console := list string.
Definition M (A : Type) := Console -> Result A * Console.

Definition retM {A} (a : A) : M A := fun out => (Ok a, out).
Definition bindM {A B} (m : M A) (k : A -> M B) : M B :=
  fun out =>
    match m out with
    | (Ok a, out') => k a out'
    | (Throw e, out') => (Throw e, out')
    end.
Definition liftM {A} (r : Result A) : M A := fun out => (r, out).
Definition console_log (line : string) : M unit := fun out => (Ok tt, out ++ [line]).

Notation "x <<- e ;; k" := (bindM e (fun x => k))
  (at level 100, e at next level, right associativity) : result_scope.

(** [s.split(sep)] for a one-character separator. *)
Fixpoint split_go (sep : ascii) (cur : string) (s : string) : list string :=
  match s with
  | EmptyString => [cur]
  | String c s' =>
      if bool_decide (c = sep) then cur :: split_go sep "" s'
      else split_go sep (cur +:+ String c "") s'
  end.
Definition split (sep : ascii) (s : string) : list string := split_go sep "" s.

(** ** Regular expressions

    A backtracking matcher for the operators used by the two patterns of
    [parser.js]: characters, [.], negated one-character classes, sequence,
    alternation, greedy [?] and [*] and lazy [+?] on a character set, one
    capturing group and [$]. *)
Module RegExp.

Inductive cset :=
| CChar (c : ascii)    (* the character c *)
| CAny                 (* .     *)
| CNot (c : ascii).    (* [^c]  *)

Inductive re :=
| Eps
| Chr (cs : cset)
| Seq (r1 r2 : re)
| Alt (r1 r2 : re)
| Opt (r : re)           (* r?   greedy *)
| Star (cs : cset)       (* cs*  greedy *)
| PlusLazy (cs : cset)   (* cs+? lazy   *)
| Group (r : re)         (* ( r ), the capturing group 1 *)
| Eoi.                   (* $ without the m flag *)

(** Canonicalize of the i flag on code units below 128. *)
Definition canon (c : ascii) : ascii :=
  let n := nat_of_ascii c in
  if (97 <=? n)%nat && (n <=? 122)%nat then ascii_of_nat (n - 32) else c.

Definition line_terminator (c : ascii) : bool :=
  let n := nat_of_ascii c in (n =? 10)%nat || (n =? 13)%nat.

Definition cset_match (ic : bool) (cs : cset) (x : ascii) : bool :=
  match cs with
  | CChar c => if ic then bool_decide (canon x = canon c) else bool_decide (x = c)
  | CAny => negb (line_terminator x)
  | CNot c => negb (if ic then bool_decide (canon x = canon c) else bool_decide (x = c))
  end.

(** State of a match: the number of code units matched so far, the rest
    of the input and the text of group 1. *)
Definition cont (R : Type) := nat -> list ascii -> option (list ascii) -> option R.

Fixpoint star_greedy {R} (ic : bool) (cs : cset) (pos : nat) (s : list ascii)
    (cap : option (list ascii)) (k : cont R) : option R :=
  match s with
  | x :: s' =>
      if cset_match ic cs x then
        match star_greedy ic cs (S pos) s' cap k with
        | Some r => Some r
        | None => k pos s cap
        end
      else k pos s cap
  | [] => k pos s cap
  end.

Fixpoint star_lazy {R} (ic : bool) (cs : cset) (pos : nat) (s : list ascii)
    (cap : option (list ascii)) (k : cont R) : option R :=
  match k pos s cap with
  | Some r => Some r
  | None =>
      match s with
      | x :: s' => if cset_match ic cs x then star_lazy ic cs (S pos) s' cap k else None
      | [] => None
      end
  end.

Fixpoint m {R} (ic : bool) (r : re) (pos : nat) (s : list ascii)
    (cap : option (list ascii)) (k : cont R) : option R :=
  match r with
  | Eps => k pos s cap
  | Chr cs =>
      match s with
      | x :: s' => if cset_match ic cs x then k (S pos) s' cap else None
      | [] => None
      end
  | Seq r1 r2 => m ic r1 pos s cap (fun pos1 s1 cap1 => m ic r2 pos1 s1 cap1 k)
  | Alt r1 r2 =>
      match m ic r1 pos s cap k with
      | Some res => Some res
      | None => m ic r2 pos s cap k
      end
  | Opt r1 =>
      match m ic r1 pos s cap k with
      | Some res => Some res
      | None => k pos s cap
      end
  | Star cs => star_greedy ic cs pos s cap k
  | PlusLazy cs =>
      match s with
      | x :: s' => if cset_match ic cs x then star_lazy ic cs (S pos) s' cap k else None
      | [] => None
      end
  | Group r1 =>
      m ic r1 pos s cap (fun pos1 s1 _ => k pos1 s1 (Some (take (pos1 - pos) s)))
  | Eoi => match s with [] => k pos s cap | _ => None end
  end.

(** One match attempt at the start of [s]: the length of the match, the
    rest after it and group 1. *)
Definition match_here (ic : bool) (r : re) (s : list ascii)
  : option (nat * list ascii * option (list ascii)) :=
  m ic r 0 s None (fun pos s' cap => Some (pos, s', cap)).

(** The leftmost match at or after the start of [s]. *)
Fixpoint search (ic : bool) (r : re) (s : list ascii)
  : option (nat * list ascii * option (list ascii)) :=
  match match_here ic r s with
  | Some found => Some found
  | None =>
      match s with
      | _ :: t => search ic r t
      | [] => None
      end
  end.

(** [re.test(s)]. *)
Definition test (ic : bool) (r : re) (s : string) : bool :=
  match search ic r (list_ascii_of_string s) with Some _ => true | None => false end.

(** [[...s.matchAll(re)]] with the g flag, projected to group 1 of every
    match; after an empty match the search resumes one code unit later. *)
Fixpoint matchAll_go (fuel : nat) (ic : bool) (r : re) (s : list ascii)
  : list (option (list ascii)) :=
  match fuel with
  | O => []
  | S fuel' =>
      match search ic r s with
      | None => []
      | Some (len, rest, cap) =>
          cap :: match len, rest with
                 | O, [] => []
                 | O, _ :: t => matchAll_go fuel' ic r t
                 | S _, _ => matchAll_go fuel' ic r rest
                 end
      end
  end.

Definition matchAll (ic : bool) (r : re) (s : string) : list (option (list ascii)) :=
  matchAll_go (S (String.length s)) ic r (list_ascii_of_string s).

Fixpoint lit (s : string) : re :=
  match s with
  | EmptyString => Eps
  | String c s' => Seq (Chr (CChar c)) (lit s')
  end.

(** [(?:gif|jpe?g|png)] *)
Definition image_ext : re :=
  Alt (lit "gif")
    (Alt (Seq (lit "jp") (Seq (Opt (lit "e")) (lit "g")))
         (lit "png")).

End RegExp.

(** ** The platform's URL parser

    [new URL(input, base).href] of the WHATWG URL standard, for [http] and
    [https] URLs whose authority is a plain host name.  The fragment covers
    the stripping of control characters, scheme detection, authority, the
    relative states, dot segments, percent-encoding of path, query and
    fragment, and the serializer.  Credentials, ports, IP addresses,
    internationalized or percent-encoded hosts and other schemes are
    reported as [Unmodelled]; a parse failure is the TypeError the
    constructor throws.  An [Ok] or a TypeError of the model is what the
    platform gives; [Unmodelled] says nothing about it. *)
Module URL.

Record url := {
  scheme : string;
  host : string;
  path : list string;
  query : option string;
  fragment : option string;
}.

Definition code (c : ascii) : nat := nat_of_ascii c.

Definition is_alpha (c : ascii) : bool :=
  let n := code c in
  ((65 <=? n)%nat && (n <=? 90)%nat) || ((97 <=? n)%nat && (n <=? 122)%nat).
Definition is_digit (c : ascii) : bool :=
  let n := code c in (48 <=? n)%nat && (n <=? 57)%nat.
Definition lower (c : ascii) : ascii :=
  let n := code c in
  if (65 <=? n)%nat && (n <=? 90)%nat then ascii_of_nat (n + 32) else c.
Definition is_slash (c : ascii) : bool :=
  bool_decide (c = "/"%char) || bool_decide (c = "\"%char).

(** Leading and trailing C0 controls and spaces are dropped, tabs and
    newlines are removed everywhere. *)
Definition c0_or_space (c : ascii) : bool := (code c <=? 32)%nat.
Definition tab_or_newline (c : ascii) : bool :=
  let n := code c in (n =? 9)%nat || (n =? 10)%nat || (n =? 13)%nat.
Fixpoint drop_while (p : ascii -> bool) (s : list ascii) : list ascii :=
  match s with
  | c :: s' => if p c then drop_while p s' else s
  | [] => []
  end.
Definition preprocess (s : list ascii) : list ascii :=
  let s1 := drop_while c0_or_space s in
  let s2 := rev (drop_while c0_or_space (rev s1)) in
  List.filter (fun c => negb (tab_or_newline c)) s2.

(** The longest prefix of [s] without a character satisfying [p], and the rest. *)
Fixpoint break (p : ascii -> bool) (s : list ascii) : list ascii * list ascii :=
  match s with
  | c :: s' =>
      if p c then ([], s)
      else let '(a, b) := break p s' in (c :: a, b)
  | [] => ([], [])
  end.

(** Scheme start state and scheme state: [alpha (alnum | + | - | .)* :]. *)
Definition scheme_char (c : ascii) : bool :=
  is_alpha c || is_digit c || bool_decide (c = "+"%char)
  || bool_decide (c = "-"%char) || bool_decide (c = "."%char).
Definition take_scheme (s : list ascii) : option (list ascii * list ascii) :=
  match s with
  | c :: _ =>
      if is_alpha c then
        match break (fun x => negb (scheme_char x)) s with
        | (sch, ":"%char :: rest) => Some (map lower sch, rest)
        | _ => None
        end
      else None
  | [] => None
  end.

(** Percent-encoding. *)
Definition hex_digit (n : nat) : ascii :=
  if (n <? 10)%nat then ascii_of_nat (48 + n) else ascii_of_nat (55 + n).
Definition pct (n : nat) : list ascii :=
  ["%"%char; hex_digit (n / 16); hex_digit (n mod 16)].
(** UTF-8 percent-encoding of a code unit of the Latin-1 range. *)
Definition utf8_pct (c : ascii) : list ascii :=
  let n := code c in
  if (n <? 128)%nat then pct n
  else if (n <? 192)%nat then pct 194 ++ pct n
  else pct 195 ++ pct (n - 64).
Definition in_c0_set (c : ascii) : bool :=
  let n := code c in (n <? 32)%nat || (126 <? n)%nat.
Definition mem_chars (c : ascii) (l : string) : bool :=
  bool_decide (c ∈ list_ascii_of_string l).
Definition in_fragment_set (c : ascii) : bool := in_c0_set c || mem_chars c (" <>`" +:+ dq).
Definition in_query_set (c : ascii) : bool := in_c0_set c || mem_chars c (" #<>'" +:+ dq).
Definition in_path_set (c : ascii) : bool := in_c0_set c || mem_chars c (" #<>?`{}" +:+ dq).
Definition encode (set : ascii -> bool) (s : list ascii) : list ascii :=
  concat (map (fun c => if set c then utf8_pct c else [c]) s).

(** Path state for a special scheme. *)
Fixpoint split_slash (cur : list ascii) (s : list ascii) : list (list ascii) :=
  match s with
  | [] => [rev cur]
  | c :: s' => if is_slash c then rev cur :: split_slash [] s' else split_slash (c :: cur) s'
  end.
Definition lowers (s : list ascii) : string := string_of_list_ascii (map lower s).
Definition single_dot (seg : list ascii) : bool :=
  let l := lowers seg in bool_decide (l = ".") || bool_decide (l = "%2e").
Definition double_dot (seg : list ascii) : bool :=
  let l := lowers seg in
  bool_decide (l = "..") || bool_decide (l = ".%2e")
  || bool_decide (l = "%2e.") || bool_decide (l = "%2e%2e").
Definition shorten (p : list string) : list string := removelast p.
Fixpoint path_segments (acc : list string) (segs : list (list ascii)) : list string :=
  match segs with
  | [] => acc
  | seg :: rest =>
      let seg := encode in_path_set seg in
      let last := match rest with [] => true | _ => false end in
      let acc' :=
        if double_dot seg then (if last then shorten acc ++ [""] else shorten acc)
        else if single_dot seg then (if last then acc ++ [""] else acc)
        else acc ++ [string_of_list_ascii seg] in
      path_segments acc' rest
  end.
Definition path_state (acc : list string) (s : list ascii) : list string :=
  path_segments acc (split_slash [] s).

(** The input from the current state on, cut at [#] and then at [?]. *)
Definition cut (s : list ascii)
  : list ascii * option (list ascii) * option (list ascii) :=
  let '(before, frag) := break (fun c => bool_decide (c = "#"%char)) s in
  let '(p, q) := break (fun c => bool_decide (c = "?"%char)) before in
  (p, match q with _ :: q' => Some q' | [] => None end,
      match frag with _ :: f' => Some f' | [] => None end).
Definition enc_query (q : option (list ascii)) : option string :=
  option_map (fun q => string_of_list_ascii (encode in_query_set q)) q.
Definition enc_fragment (f : option (list ascii)) : option string :=
  option_map (fun f => string_of_list_ascii (encode in_fragment_set f)) f.

(** Host state and host parsing, for a plain host name. *)
Definition host_char (c : ascii) : bool :=
  is_alpha c || is_digit c || bool_decide (c = "-"%char) || bool_decide (c = "."%char).
Fixpoint split_dot (cur : list ascii) (s : list ascii) : list (list ascii) :=
  match s with
  | [] => [rev cur]
  | c :: s' =>
      if bool_decide (c = "."%char) then rev cur :: split_dot [] s'
      else split_dot (c :: cur) s'
  end.
Definition plain_label (l : list ascii) : bool :=
  match l with
  | [] => false
  | _ => negb (bool_decide (take 4 (map lower l) = list_ascii_of_string "xn--"))
  end.
Definition parse_host (h : list ascii) : Result string :=
  match h with
  | [] => Throw TypeError
  | _ =>
      let labels := split_dot [] h in
      if forallb host_char h && forallb plain_label labels
         && match last labels with
            | Some (c :: _) => negb (is_digit c)
            | _ => false
            end
      then Ok (lowers h)
      else Throw Unmodelled
  end.

(** Special authority ignore slashes state, authority, host, path start
    and the states after them. *)
Definition authority_onwards (sch : string) (s : list ascii) : Result url :=
  let s := drop_while is_slash s in
  let '(auth, rest) :=
    break (fun c => is_slash c || bool_decide (c = "?"%char) || bool_decide (c = "#"%char)) s in
  h <- parse_host auth ;;
  let '(p, q, f) := cut rest in
  let p := match p with c :: p' => if is_slash c then p' else p | [] => [] end in
  Ok {| scheme := sch; host := h; path := path_state [] p;
        query := enc_query q; fragment := enc_fragment f |}.

(** Relative state and relative slash state, against a special base. *)
Definition relative (base : url) (s : list ascii) : Result url :=
  match s with
  | c :: s' =>
      if is_slash c then
        match s' with
        | c' :: _ =>
            if is_slash c' then authority_onwards (scheme base) s'
            else
              let '(p, q, f) := cut s' in
              Ok {| scheme := scheme base; host := host base; path := path_state [] p;
                    query := enc_query q; fragment := enc_fragment f |}
        | [] =>
            Ok {| scheme := scheme base; host := host base; path := path_state [] [];
                  query := None; fragment := None |}
        end
      else
        let '(p, q, f) := cut s in
        match p with
        | [] =>
            Ok {| scheme := scheme base; host := host base; path := path base;
                  query := match q with Some _ => enc_query q | None => query base end;
                  fragment := enc_fragment f |}
        | _ =>
            Ok {| scheme := scheme base; host := host base;
                  path := path_state (shorten (path base)) p;
                  query := enc_query q; fragment := enc_fragment f |}
        end
  | [] =>
      Ok {| scheme := scheme base; host := host base; path := path base;
            query := query base; fragment := None |}
  end.

Definition special (sch : string) : bool :=
  bool_decide (sch = "http") || bool_decide (sch = "https").

(** The basic URL parser.  Whether [^] is percent-encoded in a path
    depends on the version of the standard: an input with it is left out. *)
Definition parse (input : string) (base : option url) : Result url :=
  let s := preprocess (list_ascii_of_string input) in
  if bool_decide ("^"%char ∈ s) then Throw Unmodelled else
  match take_scheme s with
  | Some (sch, rest) =>
      let sch := string_of_list_ascii sch in
      if special sch then
        match base with
        | Some b =>
            if bool_decide (scheme b = sch) then
              match rest with
              | "/"%char :: "/"%char :: _ => authority_onwards sch rest
              | _ => relative b rest
              end
            else authority_onwards sch rest
        | None => authority_onwards sch rest
        end
      else Throw Unmodelled
  | None =>
      match base with
      | Some b => relative b s
      | None => Throw TypeError
      end
  end.

(** The URL serializer. *)
Definition serialize (u : url) : string :=
  scheme u +:+ "://" +:+ host u
  +:+ String.concat "" (map (fun seg => "/" +:+ seg) (path u))
  +:+ match query u with Some q => "?" +:+ q | None => "" end
  +:+ match fragment u with Some f => "#" +:+ f | None => "" end.

(** [new URL(input, base).href]; [base] is [None] when the argument is
    [undefined]. *)
Definition href (input : string) (base : option string) : Result string :=
  match base with
  | Some b =>
      pb <- parse b None ;;
      u <- parse input (Some pb) ;;
      Ok (serialize u)
  | None =>
      u <- parse input None ;;
      Ok (serialize u)
  end.

End URL.

(** ** The date library

    The two calls that [getPostDate] makes into luxon, a library that is
    not under [src/]: the grammar is RFC 2822's [date-time] with its
    optional day of week, two- to four-digit years, optional seconds and
    numeric, military [Z] or obsolete named zones; comments are read as
    white space.  Where the spec is silent (the century of a two-digit
    year, a day of week that does not fit the date, which zone names are
    known) the model follows the library. *)
Module Luxon.

Inductive DateTime :=
| Invalid
| Valid (ts : Z).   (* seconds since 1970-01-01T00:00:00Z, shown in UTC *)

Definition code (c : ascii) : nat := nat_of_ascii c.
Definition is_space (c : ascii) : bool :=
  let n := code c in
  ((9 <=? n)%nat && (n <=? 13)%nat) || (n =? 32)%nat || (n =? 160)%nat.
Definition is_digit (c : ascii) : bool :=
  let n := code c in (48 <=? n)%nat && (n <=? 57)%nat.

(** Comments [(...)] without nested parentheses, newlines and tabs become
    a space; runs of two or more white-space characters become one
    space; the ends are trimmed. *)
Fixpoint close_comment (s : list ascii) : option (list ascii) :=
  match s with
  | c :: s' =>
      if bool_decide (c = ")"%char) then Some s'
      else if bool_decide (c = "("%char) then None
      else close_comment s'
  | [] => None
  end.
Fixpoint uncomment (fuel : nat) (s : list ascii) : list ascii :=
  match fuel with
  | O => s
  | S fuel' =>
      match s with
      | [] => []
      | c :: s' =>
          if bool_decide (c = "("%char) then
            match close_comment s' with
            | Some rest => " "%char :: uncomment fuel' rest
            | None => c :: uncomment fuel' s'
            end
          else if (code c =? 10)%nat || (code c =? 9)%nat
          then " "%char :: uncomment fuel' s'
          else c :: uncomment fuel' s'
      end
  end.
Fixpoint drop_spaces (s : list ascii) : list ascii :=
  match s with
  | c :: s' => if is_space c then drop_spaces s' else s
  | [] => []
  end.
Fixpoint collapse (fuel : nat) (s : list ascii) : list ascii :=
  match fuel with
  | O => s
  | S fuel' =>
      match s with
      | c :: ((c' :: _) as s') =>
          if is_space c && is_space c' then " "%char :: collapse fuel' (drop_spaces s')
          else c :: collapse fuel' s'
      | _ => s
      end
  end.
Definition trim (s : list ascii) : list ascii :=
  rev (drop_spaces (rev (drop_spaces s))).
Definition preprocessRFC2822 (s : list ascii) : list ascii :=
  trim (collapse (length s) (uncomment (length s) s)).

(** Parsers on the rest of the input. *)
Fixpoint take_digits (max : nat) (s : list ascii) : list ascii * list ascii :=
  match max, s with
  | S max', c :: s' =>
      if is_digit c then let '(d, r) := take_digits max' s' in (c :: d, r) else ([], s)
  | _, _ => ([], s)
  end.
Definition parseInt (d : list ascii) : Z :=
  fold_left (fun acc c => (acc * 10 + Z.of_nat (code c - 48))%Z) d 0%Z.
(** [\d{lo,hi}] followed by something that is not a digit. *)
Definition digits (lo hi : nat) (s : list ascii) : option (list ascii * list ascii) :=
  let '(d, r) := take_digits hi s in
  if (lo <=? length d)%nat then Some (d, r) else None.
Definition space (s : list ascii) : option (list ascii) :=
  match s with
  | c :: s' => if is_space c then Some s' else None
  | [] => None
  end.
Definition char (x : ascii) (s : list ascii) : option (list ascii) :=
  match s with
  | c :: s' => if bool_decide (c = x) then Some s' else None
  | [] => None
  end.
(** The 1-based position of the three-letter name at the head of [s]. *)
Definition name3 (names : list string) (s : list ascii) : option (Z * list ascii) :=
  let w := string_of_list_ascii (take 3 s) in
  match list_find (fun n => n = w) names with
  | Some (i, _) => Some (Z.of_nat (S i), drop 3 s)
  | None => None
  end.
Definition weekdaysShort := ["Mon"; "Tue"; "Wed"; "Thu"; "Fri"; "Sat"; "Sun"].
Definition monthsShort :=
  ["Jan"; "Feb"; "Mar"; "Apr"; "May"; "Jun"; "Jul"; "Aug"; "Sep"; "Oct"; "Nov"; "Dec"].

Definition obsOffsets : list (string * Z) :=
  [("GMT", 0); ("EDT", -4 * 60); ("EST", -5 * 60); ("CDT", -5 * 60); ("CST", -6 * 60);
   ("MDT", -6 * 60); ("MST", -7 * 60); ("PDT", -7 * 60); ("PST", -8 * 60)]%Z.

(** The zone, to the end of the input, as an offset in minutes. *)
Definition zone (s : list ascii) : option Z :=
  let w := string_of_list_ascii s in
  if bool_decide (w = "UT") || bool_decide (w = "Z") || bool_decide (w = "z") then Some 0%Z
  else
    match list_find (fun p => p.1 = w) obsOffsets with
    | Some (_, (_, off)) => Some off
    | None =>
        match s with
        | sign :: rest =>
            if bool_decide (sign = "+"%char) || bool_decide (sign = "-"%char) then
              match digits 2 2 rest with
              | Some (hh, rest1) =>
                  match digits 2 2 rest1 with
                  | Some (mm, []) =>
                      let h := parseInt hh in
                      let mi := parseInt mm in
                      Some (if bool_decide (sign = "-"%char)
                            then (- (h * 60) - mi)%Z else (h * 60 + mi)%Z)
                  | _ => None
                  end
              | None => None
              end
            else None
        | [] => None
        end
    end.

Record fields := {
  weekday : option Z;
  year : Z; month : Z; day : Z;
  hour : Z; minute : Z; second : Z;
  offset : Z;   (* minutes east of UTC *)
}.

Definition untruncateYear (y : Z) : Z := if (60 <? y)%Z then (1900 + y)%Z else (2000 + y)%Z.

(** The RFC 2822 date-time grammar. *)
Definition parseRFC2822 (s : list ascii) : option fields :=
  '(wd, s) ← match name3 weekdaysShort s with
             | Some (w, s1) =>
                 match char ","%char s1 ≫= space with
                 | Some s2 => Some (Some w, s2)
                 | None => Some (None, s)
                 end
             | None => Some (None, s)
             end;
  '(d, s) ← digits 1 2 s;
  s ← space s;
  '(mo, s) ← name3 monthsShort s;
  s ← space s;
  '(y, s) ← digits 2 4 s;
  s ← space s;
  '(h, s) ← digits 2 2 s;
  s ← char ":"%char s;
  '(mi, s) ← digits 2 2 s;
  '(sec, s) ← match char ":"%char s ≫= digits 2 2 with
              | Some (ss, s1) => Some (parseInt ss, s1)
              | None => Some (0%Z, s)
              end;
  s ← space s;
  off ← zone s;
  Some {| weekday := wd;
          year := if bool_decide (length y = 2%nat) then untruncateYear (parseInt y)
                  else parseInt y;
          month := mo; day := parseInt d;
          hour := parseInt h; minute := parseInt mi; second := sec;
          offset := off |}.

(** The proleptic Gregorian calendar. *)
Definition isLeapYear (y : Z) : bool :=
  ((y mod 4 =? 0) && (negb (y mod 100 =? 0) || (y mod 400 =? 0)))%Z.
Definition daysInMonth (y m : Z) : Z :=
  if (m =? 2)%Z then (if isLeapYear y then 29 else 28)%Z
  else if ((m =? 4) || (m =? 6) || (m =? 9) || (m =? 11))%Z then 30%Z
  else 31%Z.
(** Days from 1970-01-01 to the civil date. *)
Definition days_from_civil (y m d : Z) : Z :=
  let y' := (if m <=? 2 then y - 1 else y)%Z in
  let era := (y' / 400)%Z in
  let yoe := (y' - era * 400)%Z in
  let doy := ((153 * (if 2 <? m then m - 3 else m + 9) + 2) / 5 + d - 1)%Z in
  let doe := (yoe * 365 + yoe / 4 - yoe / 100 + doy)%Z in
  (era * 146097 + doe - 719468)%Z.
(** The year of the era, the month and the day of a day of the
    400-year era, which starts on a first of March. *)
Definition civil_of_doe (doe : Z) : Z * Z * Z :=
  let yoe := ((doe - doe / 1460 + doe / 36524 - doe / 146096) / 365)%Z in
  let doy := (doe - (365 * yoe + yoe / 4 - yoe / 100))%Z in
  let mp := ((5 * doy + 2) / 153)%Z in
  let d := (doy - (153 * mp + 2) / 5 + 1)%Z in
  let m := (if mp <? 10 then mp + 3 else mp - 9)%Z in
  ((yoe + (if m <=? 2 then 1 else 0))%Z, m, d).
Definition civil_from_days (z : Z) : Z * Z * Z :=
  let z := (z + 719468)%Z in
  let era := (z / 146097)%Z in
  let '(y, m, d) := civil_of_doe (z - era * 146097) in
  ((y + era * 400)%Z, m, d).
(** ISO weekday, 1 for Monday to 7 for Sunday, of a day number. *)
Definition weekday_of_days (z : Z) : Z := ((z + 3) mod 7 + 1)%Z.

Definition between (x lo hi : Z) : bool := ((lo <=? x) && (x <=? hi))%Z.
Definition validFields (f : fields) : bool :=
  between (month f) 1 12
  && between (day f) 1 (daysInMonth (year f) (month f))
  && (between (hour f) 0 23
      || ((hour f =? 24) && (minute f =? 0) && (second f =? 0))%Z)
  && between (minute f) 0 59
  && between (second f) 0 59.

(** Seconds of the local wall clock of [f] since the epoch. *)
Definition localSeconds (f : fields) : Z :=
  (days_from_civil (year f) (month f) (day f) * 86400
   + hour f * 3600 + minute f * 60 + second f)%Z.

Definition fromFields (f : fields) : DateTime :=
  if validFields f then
    let loc := localSeconds f in
    match weekday f with
    | Some w =>
        if (w =? weekday_of_days (loc / 86400))%Z
        then Valid (loc - offset f * 60)%Z else Invalid
    | None => Valid (loc - offset f * 60)%Z
    end
  else Invalid.

(** Modelled from the spec: luxon's [DateTime.fromRFC2822(text, { zone: 'utc' })]
    is not under [src/]; the spec has the publish date parsed as an
    RFC-2822 timestamp and interpreted in UTC, a malformed date failing
    the field: the result is a point in time, or invalid. *)
Definition fromRFC2822 (text : value) : Result DateTime :=
  match text with
  | VString s =>
      Ok match parseRFC2822 (preprocessRFC2822 (list_ascii_of_string s)) with
         | Some f => fromFields f
         | None => Invalid
         end
  | _ => Throw TypeError
  end.

(** [padStart] of the library: a number padded with zeros to [n] digits. *)
Definition padStart (x : Z) (n : nat) : string :=
  let digits := pretty (Z.abs x) in
  let padded := String.concat "" (replicate (n - String.length digits) "0") +:+ digits in
  if (x <? 0)%Z then "-" +:+ padded else padded.

(** Modelled from the spec: luxon's [dt.toISODate()] is not under [src/];
    the spec has the timestamp normalized to an ISO calendar date
    [YYYY-MM-DD], here the date in UTC, and [null] for an invalid one. *)
Definition toISODate (dt : DateTime) : value :=
  match dt with
  | Invalid => VNull
  | Valid ts =>
      let '(y, m, d) := civil_from_days (ts / 86400) in
      let long := ((9999 <? y) || (y <? 0))%Z in
      VString ((if long && (0 <=? y)%Z then "+" else "")
               +:+ padStart y (if long then 6 else 4)
               +:+ "-" +:+ padStart m 2 +:+ "-" +:+ padStart d 2)
  end.

End Luxon.

(** ** The parsed export document

    The tree that xml2js builds: every child tag of an element is a
    property holding the array of its occurrences, absent when the tag does
    not occur.  A text-only element is a string; [category] elements carry
    attributes and are objects with the attributes under [$] and the text
    under [_]. *)

(** A tag of text-only elements: [None] when the property is undefined. *)
Definition Field := option (list string).

Record PostMeta := {
  meta_key : Field;
  meta_value : Field;
}.

Inductive CategoryNode :=
| CatText (text : string)                            (* no attribute: a plain string *)
| CatElem (domain : option string) (text : option string).  (* [$].domain and [_] *)

Record RawItem := {
  post_type : Field;
  status : Field;
  post_id : Field;
  post_name : Field;
  post_parent : Field;
  pubDate : Field;
  link : Field;
  creator : Field;
  title : Field;
  description : Field;
  comment_status : Field;
  ping_status : Field;
  is_sticky : Field;
  encoded : Field;
  attachment_url : Field;
  postmeta : option (list PostMeta);
  category : option (list CategoryNode);
  tags : Field;
}.

Record Channel := { item : option (list RawItem) }.
Record Rss := { channel : option (list Channel) }.
Record Data := { rss : option Rss }.

Record Config := {
  input : string;
  postTypes : string;
  saveAttachedImages : bool;
  saveScrapedImages : bool;
}.

(** ** Post records and image references *)

Record Meta := {
  m_id : value;
  m_slug : value;
  m_coverImageId : value;
  m_imageUrls : list value;
  m_type : value;
}.

Record Frontmatter := {
  f_title : value;
  f_date : value;
  f_slug : value;
  f_link : value;
  f_creator : value;
  f_description : value;
  f_commentStatus : value;
  f_pingStatus : value;
  f_isSticky : value;
  f_categories : list value;
  f_tags : list value;
  f_coverImage : value;     (* undefined until the merge sets it *)
}.

Record Post := {
  meta : Meta;
  frontmatter : Frontmatter;
  content : value;
}.

Record ImageRef := {
  i_id : value;
  i_postId : value;
  i_url : value;
}.

(** [post.frontmatter.coverImage = v] *)
Definition set_coverImage (p : Post) (v : value) : Post :=
  let f := frontmatter p in
  {| meta := meta p;
     frontmatter :=
       {| f_title := f_title f; f_date := f_date f; f_slug := f_slug f; f_link := f_link f;
          f_creator := f_creator f; f_description := f_description f;
          f_commentStatus := f_commentStatus f; f_pingStatus := f_pingStatus f;
          f_isSticky := f_isSticky f; f_categories := f_categories f; f_tags := f_tags f;
          f_coverImage := v |};
     content := content p |}.

(** [post.meta.imageUrls.push(u)] *)
Definition push_imageUrl (p : Post) (u : value) : Post :=
  let m := meta p in
  {| meta :=
       {| m_id := m_id m; m_slug := m_slug m; m_coverImageId := m_coverImageId m;
          m_imageUrls := m_imageUrls m ++ [u]; m_type := m_type m |};
     frontmatter := frontmatter p;
     content := content p |}.

(** ** Reading the tree *)

(** [o.tag[0]]: a TypeError when the tag is undefined, [undefined] past the
    end of the array. *)
Definition index0 (f : Field) : Result value :=
  match f with
  | None => Throw TypeError
  | Some [] => Ok VUndefined
  | Some (s :: _) => Ok (VString s)
  end.

(** [data.rss.channel[0].item] *)
Definition channel_items (data : Data) : Result (list RawItem) :=
  match rss data with
  | None => Throw TypeError
  | Some r =>
      match channel r with
      | None | Some [] => Throw TypeError
      | Some (c :: _) =>
          match item c with
          | None => Throw TypeError
          | Some items => Ok items
          end
      end
  end.

Definition getItemsOfTypes (data : Data) (types : list string) : Result (list RawItem) :=
  items <- channel_items data ;;
  filterM (fun item => t <- index0 (post_type item) ;; Ok (includes_str types t)) items.

Definition getPostId (post : RawItem) : Result value := index0 (post_id post).
Definition getPostSlug (post : RawItem) : Result value := index0 (post_name post).

Definition getPostCoverImageId (post : RawItem) : Result value :=
  match postmeta post with
  | None => Ok VUndefined
  | Some metas =>
      found <- findM (fun pm => k <- index0 (meta_key pm) ;;
                                Ok (strict_eq k (VString "_thumbnail_id"))) metas ;;
      match found with
      | Some pm => index0 (meta_value pm)
      | None => Ok VUndefined
      end
  end.

Definition getPostType (post : RawItem) : Result value := index0 (post_type post).
Definition getPostTitle (post : RawItem) : Result value := index0 (title post).

Definition getPostDate (post : RawItem) : Result value :=
  text <- index0 (pubDate post) ;;
  dt <- Luxon.fromRFC2822 text ;;
  Ok (Luxon.toISODate dt).

Definition getLink (post : RawItem) : Result value := index0 (link post).
Definition getCreator (post : RawItem) : Result value := index0 (creator post).
Definition getDescription (post : RawItem) : Result value := index0 (description post).
Definition getCommentStatus (post : RawItem) : Result value := index0 (comment_status post).
Definition getPingStatus (post : RawItem) : Result value := index0 (ping_status post).
Definition isSticky (post : RawItem) : Result value := index0 (is_sticky post).

(** [c['$'].domain === d]: a TypeError on a node without attributes. *)
Definition domain_is (d : string) (c : CategoryNode) : Result bool :=
  match c with
  | CatText _ => Throw TypeError
  | CatElem dom _ => Ok (bool_decide (dom = Some d))
  end.

(** [c['_']] *)
Definition text_of (c : CategoryNode) : value :=
  match c with
  | CatText _ => VUndefined
  | CatElem _ (Some t) => VString t
  | CatElem _ None => VUndefined
  end.

Definition getCategories (post : RawItem) : Result (list value) :=
  match category post with
  | None => Ok []
  | Some cats =>
      kept <- filterM (domain_is "category") cats ;;
      Ok (map text_of kept)
  end.

Definition getTags (post : RawItem) : Result (list value) :=
  match tags post with
  | None => Ok []
  | Some _ =>
      match category post with
      | None => Throw TypeError
      | Some cats =>
          kept <- filterM (domain_is "post_tag") cats ;;
          Ok (map text_of kept)
      end
  end.

(** [/\.(gif|jpe?g|png)$/i] *)
Definition attachment_re : RegExp.re :=
  RegExp.Seq (RegExp.lit ".") (RegExp.Seq (RegExp.Group RegExp.image_ext) RegExp.Eoi).

(** [/<img[^>]*src="(.+?\.(?:gif|jpe?g|png))"[^>]*>/gi] *)
Definition img_re : RegExp.re :=
  RegExp.Seq (RegExp.lit "<img")
    (RegExp.Seq (RegExp.Star (RegExp.CNot ">"))
    (RegExp.Seq (RegExp.lit ("src=" +:+ dq))
    (RegExp.Seq (RegExp.Group
                   (RegExp.Seq (RegExp.PlusLazy RegExp.CAny)
                      (RegExp.Seq (RegExp.lit ".") RegExp.image_ext)))
    (RegExp.Seq (RegExp.lit dq)
    (RegExp.Seq (RegExp.Star (RegExp.CNot ">"))
                (RegExp.lit ">")))))).

(** ToString of a value passed where a string is expected. *)
Definition toString (v : value) : string := toPropertyKey v.

(** The lookup object [postsLookup], a plain object: its own properties,
    each holding a post by its index in [posts], and its prototype,
    [Object.prototype] ([None]) until an assignment to [__proto__] replaces
    it by a post. *)
Record Lookup := {
  own : gmap string nat;
  proto : option nat;
}.

Definition Object_prototype_keys : list string :=
  ["constructor"; "__defineGetter__"; "__defineSetter__"; "hasOwnProperty";
   "__lookupGetter__"; "__lookupSetter__"; "isPrototypeOf"; "propertyIsEnumerable";
   "toString"; "valueOf"; "__proto__"; "toLocaleString"].

(** [lookup[key] = post], the post being the object at index [i]. *)
Definition lookup_set (lk : Lookup) (key : string) (i : nat) : Lookup :=
  if bool_decide (key = "__proto__")
  then {| own := own lk; proto := Some i |}
  else {| own := <[key := i]> (own lk); proto := proto lk |}.

Inductive Resolved :=
| RPost (i : nat)    (* the post object at index i *)
| RForeign           (* a truthy value that is not a post: it has no [meta] *)
| RFalsy.            (* undefined or another falsy value *)

#[global] Instance Resolved_eq_dec : EqDecision Resolved.
Proof. solve_decision. Defined.

(** [lookup[key]]: own properties first, then the prototype chain, a post
    record with its three properties when it has replaced the prototype,
    and [Object.prototype], whose properties are functions; [__proto__]
    reads the prototype itself. *)
Definition lookup_get (posts : list Post) (lk : Lookup) (key : string) : Resolved :=
  if bool_decide (key = "__proto__") then
    match proto lk with
    | Some i => RPost i
    | None => RForeign
    end
  else
    match own lk !! key with
    | Some i => RPost i
    | None =>
        let inherited :=
          if bool_decide (key ∈ Object_prototype_keys) then RForeign else RFalsy in
        match proto lk with
        | None => inherited
        | Some i =>
            if bool_decide (key = "meta") || bool_decide (key = "frontmatter") then RForeign
            else if bool_decide (key = "content") then
              match posts !! i with
              | Some p => if truthy (content p) then RForeign else RFalsy
              | None => RFalsy
              end
            else inherited
        end
    end.

(** [posts.reduce((lookup, post) => { lookup[post.meta.id] = post; return lookup }, {})] *)
Definition build_lookup (posts : list Post) : Lookup :=
  fold_left (fun lk '(i, p) => lookup_set lk (toPropertyKey (m_id (meta p))) i)
            (imap (fun i p => (i, p)) posts)
            {| own := ∅; proto := None |}.

(** The last path segment of a URL: what follows its last [/]. *)
Definition lastPathSegment (url : string) : string :=
  default "" (last (split "/" url)).

(** ** The pipeline *)
Section Parser.

(** [translator.getPostContent(post, turndownService, config)], with the
    service that [translator.initTurndownService()] builds: the
    text-conversion collaborator, a black box that may throw. *)
Variable getPostContent : RawItem -> Config -> Result value.

(** The decoding applied to a file name (a total function on strings). *)
Variable decode : string -> string.

(** Modelled from the spec: [shared.getFilenameFromUrl] is not under
    [src/]; the spec describes it as the utility [(url) -> string] that
    derives a file name from a URL, its last path segment, decoded.  It
    is applied to strings only; on another value the property access
    fails. *)
Definition getFilenameFromUrl (url : value) : Result value :=
  match url with
  | VString u => Ok (VString (decode (lastPathSegment u)))
  | _ => Throw TypeError
  end.

(** The callback of [.map] in [collectPosts]. *)
Definition extractPost (config : Config) (post : RawItem) : Result Post :=
  id <- getPostId post ;;
  slug <- getPostSlug post ;;
  coverImageId <- getPostCoverImageId post ;;
  type <- getPostType post ;;
  title <- getPostTitle post ;;
  date <- getPostDate post ;;
  slug' <- getPostSlug post ;;
  link <- getLink post ;;
  creator <- getCreator post ;;
  description <- getDescription post ;;
  commentStatus <- getCommentStatus post ;;
  pingStatus <- getPingStatus post ;;
  sticky <- isSticky post ;;
  categories <- getCategories post ;;
  tags <- getTags post ;;
  content <- getPostContent post config ;;
  Ok {| meta := {| m_id := id; m_slug := slug; m_coverImageId := coverImageId;
                   m_imageUrls := []; m_type := type |};
        frontmatter := {| f_title := title; f_date := date; f_slug := slug';
                          f_link := link; f_creator := creator;
                          f_description := description;
                          f_commentStatus := commentStatus;
                          f_pingStatus := pingStatus; f_isSticky := sticky;
                          f_categories := categories; f_tags := tags;
                          f_coverImage := VUndefined |};
        content := content |}.

(** The callback of [.filter] in [collectPosts]. *)
Definition notTrashOrDraft (post : RawItem) : Result bool :=
  s <- index0 (status post) ;;
  if negb (strict_eq s (VString "trash"))
  then s' <- index0 (status post) ;; Ok (negb (strict_eq s' (VString "draft")))
  else Ok false.

(** The array [posts] that [collectPosts] builds. *)
Definition collectPosts_array (data : Data) (config : Config) : Result (list Post) :=
  let types := split "," (postTypes config) in
  items <- getItemsOfTypes data types ;;
  kept <- filterM notTrashOrDraft items ;;
  mapM_ (extractPost config) kept.

(** [collectPosts]: the array, then the line on the console. *)
Definition collectPosts (data : Data) (config : Config) : M (list Post) :=
  posts <<- liftM (collectPosts_array data config) ;;
  _ <<- console_log (pretty (length posts) +:+ " posts found.") ;;
  retM posts.

(** The callbacks of [.filter] and [.map] in [collectAttachedImages]. *)
Definition isImageAttachment (attachment : RawItem) : Result bool :=
  u <- index0 (attachment_url attachment) ;;
  Ok (RegExp.test true attachment_re (toString u)).

Definition attachedImage (attachment : RawItem) : Result ImageRef :=
  id <- index0 (post_id attachment) ;;
  postId <- index0 (post_parent attachment) ;;
  url <- index0 (attachment_url attachment) ;;
  Ok {| i_id := id; i_postId := postId; i_url := url |}.

(** The array [images] that [collectAttachedImages] builds. *)
Definition collectAttachedImages_array (data : Data) : Result (list ImageRef) :=
  items <- getItemsOfTypes data ["attachment"] ;;
  kept <- filterM isImageAttachment items ;;
  mapM_ attachedImage kept.

Definition collectAttachedImages (data : Data) : M (list ImageRef) :=
  images <<- liftM (collectAttachedImages_array data) ;;
  _ <<- console_log (pretty (length images) +:+ " attached images found.") ;;
  retM images.

(** [new URL(match[1], postLink).href] *)
Definition resolveMatch (postLink : value) (m1 : option (list ascii)) : Result string :=
  let src := match m1 with
             | Some c => string_of_list_ascii c
             | None => "undefined"
             end in
  match postLink with
  | VUndefined => URL.href src None
  | _ => URL.href src (Some (toString postLink))
  end.

(** The body of [forEach(post => ...)] in [collectScrapedImages]: the
    images pushed for one post. *)
Definition scrapePost (post : RawItem) : Result (list ImageRef) :=
  postId <- index0 (post_id post) ;;
  postContent <- index0 (encoded post) ;;
  postLink <- index0 (link post) ;;
  match postContent with
  | VString body =>
      mapM_ (fun m1 =>
               url <- resolveMatch postLink m1 ;;
               Ok {| i_id := VNumber (-1); i_postId := postId; i_url := VString url |})
            (RegExp.matchAll true img_re body)
  | _ => Throw TypeError
  end.

(** The array [images] that [collectScrapedImages] fills, post by post. *)
Definition collectScrapedImages_array (data : Data) (config : Config)
  : Result (list ImageRef) :=
  let types := split "," (postTypes config) in
  items <- getItemsOfTypes data types ;;
  per_post <- mapM_ scrapePost items ;;
  Ok (concat per_post).

Definition collectScrapedImages (data : Data) (config : Config) : M (list ImageRef) :=
  images <<- liftM (collectScrapedImages_array data config) ;;
  _ <<- console_log (pretty (length images) +:+ " images scraped from post body content.") ;;
  retM images.

(** The body of [images.forEach(image => ...)]: the store of post
    objects after one image.  The lookup only ever holds indexes of the
    array, so the read of the store at [i] succeeds. *)
Definition mergeImage (postsLookup : Lookup) (posts : list Post) (image : ImageRef)
  : Result (list Post) :=
  match lookup_get posts postsLookup (toPropertyKey (i_postId image)) with
  | RFalsy => Ok posts
  | RForeign => Throw TypeError
  | RPost i =>
      match posts !! i with
      | None => Ok posts
      | Some post =>
          post1 <- (if strict_eq (i_id image) (m_coverImageId (meta post))
                    then name <- getFilenameFromUrl (i_url image) ;;
                         Ok (set_coverImage post name)
                    else Ok post) ;;
          Ok (<[i := if includes (m_imageUrls (meta post1)) (i_url image)
                     then post1
                     else push_imageUrl post1 (i_url image)]> posts)
      end
  end.

(** [a.forEach(f)] with a callback that changes a state and may throw. *)
Fixpoint forEachM {S A} (f : S -> A -> Result S) (l : list A) (st : S) : Result S :=
  match l with
  | [] => Ok st
  | x :: l' => st' <- f st x ;; forEachM f l' st'
  end.

(** The post objects of the array [posts] after the merge. *)
Definition mergeImagesIntoPosts (images : list ImageRef) (posts : list Post)
  : Result (list Post) :=
  let postsLookup := build_lookup posts in
  forEachM (mergeImage postsLookup) images posts.

(** The images array built by [parseFilePromise]. *)
Definition collectImages (data : Data) (config : Config) : M (list ImageRef) :=
  attached <<- (if saveAttachedImages config then collectAttachedImages data else retM []) ;;
  scraped <<- (if saveScrapedImages config then collectScrapedImages data config
               else retM []) ;;
  retM (attached ++ scraped).

(** [parseFilePromise] from the parsed document on. *)
Definition parseFilePromise (data : Data) (config : Config) : M (list Post) :=
  _ <<- console_log (String "010" "Parsing...") ;;
  posts <<- collectPosts data config ;;
  images <<- collectImages data config ;;
  liftM (mergeImagesIntoPosts images posts).

End Parser.

(** ** Example documents *)

Definition txt (s : string) : Field := Some [s].

(** The markup of an image with the given [src]. *)
Definition img_tag (src : string) : string := "<img src=" +:+ dq +:+ src +:+ dq +:+ ">".

(** An item as WordPress exports it; [content:encoded] and
    [excerpt:encoded] both end up under [encoded]. *)
Definition item_of (type status id parent url body : string)
    (metas : option (list PostMeta)) (cats : option (list CategoryNode))
    (attachment : Field) : RawItem :=
  {| post_type := txt type; status := txt status; post_id := txt id;
     post_name := txt ("item-" +:+ id); post_parent := txt parent;
     pubDate := txt "Wed, 01 Jan 2020 00:00:00 +0000";
     link := txt url; creator := txt "admin";
     title := txt ("Item " +:+ id); description := txt "";
     comment_status := txt "open"; ping_status := txt "open"; is_sticky := txt "0";
     encoded := Some [body; ""];
     attachment_url := attachment; postmeta := metas; category := cats; tags := None |}.

Definition thumbnail (id : string) : PostMeta :=
  {| meta_key := txt "_thumbnail_id"; meta_value := txt id |}.

Definition post_hello : RawItem :=
  item_of "post" "publish" "1" "0" "https://example.com/post/"
          (img_tag "photo.png") None None None.

Definition post_draft : RawItem :=
  item_of "post" "draft" "2" "0" "https://example.com/?p=2" "<p>later</p>" None None None.

Definition page_about : RawItem :=
  item_of "page" "publish" "3" "0" "https://example.com/about/"
          ("<p>" +:+ img_tag "/wp-content/uploads/a.png" +:+ img_tag "photo.png" +:+ "</p>")
          None None None.

Definition post_tagged : RawItem :=
  item_of "post" "publish" "4" "0" "https://example.com/tagged/" "<p>tags</p>" None
          (Some [CatElem (Some "category") (Some "News");
                 CatElem (Some "post_tag") (Some "rocq")])
          None.

Definition post_with_thumbnail : RawItem :=
  item_of "post" "publish" "5" "0" "https://example.com/cover/" "<p>cover</p>"
          (Some [ {| meta_key := txt "_edit_last"; meta_value := txt "1" |};
                  thumbnail "42" ])
          None None.

Definition attachment_42 : RawItem :=
  item_of "attachment" "inherit" "42" "5" "https://example.com/cover/cover/" ""
          None None (txt "https://example.com/wp-content/uploads/2020/01/cover.jpg").

Definition attachment_orphan : RawItem :=
  item_of "attachment" "inherit" "44" "constructor" "https://example.com/orphan/" ""
          None None (txt "https://example.com/wp-content/uploads/orphan.png").

Definition attachment_a : RawItem :=
  item_of "attachment" "inherit" "43" "3" "https://example.com/about/a/" ""
          None None (txt "https://example.com/wp-content/uploads/a.png").

Definition document (items : list RawItem) : Data :=
  {| rss := Some {| channel := Some [ {| item := Some items |} ] |} |}.

Definition example_document : Data :=
  document [post_hello; post_draft; page_about; post_tagged; post_with_thumbnail;
            attachment_42; attachment_a].

Definition config_default : Config :=
  {| input := "export.xml"; postTypes := "post,page";
     saveAttachedImages := true; saveScrapedImages := true |}.

(** A text conversion that keeps the body as it is. *)
Definition plain_content (post : RawItem) (config : Config) : Result value :=
  index0 (encoded post).

(** A decoding that leaves a file name as it is. *)
Definition no_decode (s : string) : string := s.

(** An item with an image before the image of the scenario. *)
Definition post_two_images : RawItem :=
  item_of "post" "publish" "3" "0" "https://example.com/post/"
          ("<p>" +:+ img_tag "first.gif" +:+ " and " +:+ img_tag "photo.png" +:+ "</p>")
          None None None.

Definition example_scraped_two_images : list ImageRef :=
  Eval vm_compute in
    match collectScrapedImages_array (document [post_two_images]) config_default with
    | Ok images => images
    | Throw _ => []
    end.

(** An item in whose body the image of the scenario follows an image tag
    that is left open: text with a [>] in the [src] that has no closing
    quote. *)
Definition open_img : string := "<img src=" +:+ dq +:+ "x>y ".
Definition post_swallowed : RawItem :=
  item_of "post" "publish" "1" "0" "https://example.com/post/"
          (open_img +:+ img_tag "photo.png") None None None.

Definition post_cover : RawItem :=
  item_of "post" "publish" "5" "0" "https://example.com/cover/" "<p>cover</p>"
          (Some [thumbnail "42"]) None None.

Definition config_scraped_only : Config :=
  {| input := "export.xml"; postTypes := "post,page";
     saveAttachedImages := false; saveScrapedImages := true |}.

(** A post record and an image reference for the merge alone. *)
Definition post_record (id : string) (cover : value) : Post :=
  {| meta := {| m_id := VString id; m_slug := VString ("item-" +:+ id);
                m_coverImageId := cover; m_imageUrls := []; m_type := VString "post" |};
     frontmatter := {| f_title := VString "t"; f_date := VString "2020-01-01";
                       f_slug := VString ("item-" +:+ id); f_link := VString "l";
                       f_creator := VString "admin"; f_description := VString "";
                       f_commentStatus := VString "open"; f_pingStatus := VString "open";
                       f_isSticky := VString "0"; f_categories := []; f_tags := [];
                       f_coverImage := VUndefined |};
     content := VString "text" |}.

Definition image_ref (id : value) (postId url : string) : ImageRef :=
  {| i_id := id; i_postId := VString postId; i_url := VString url |}.

(** The record extracted from the first example item. *)
Definition example_post_hello : Post :=
  Eval vm_compute in
    match extractPost plain_content config_default post_hello with
    | Ok p => p
    | Throw _ => post_record "" VUndefined
    end.

(** The stages of the pipeline on the example document. *)
Definition example_posts : list Post :=
  Eval vm_compute in
    match collectPosts_array plain_content example_document config_default with
    | Ok posts => posts
    | Throw _ => []
    end.

Definition example_images : list ImageRef :=
  Eval vm_compute in
    match (collectImages example_document config_default []).1 with
    | Ok images => images
    | Throw _ => []
    end.

Definition example_scraped : list ImageRef :=
  Eval vm_compute in
    match collectScrapedImages_array example_document config_default with
    | Ok images => images
    | Throw _ => []
    end.

Definition example_result : list Post :=
  Eval vm_compute in
    match (parseFilePromise plain_content no_decode example_document config_default []).1 with
    | Ok posts => posts
    | Throw _ => []
    end.

Definition example_console : Console :=
  Eval vm_compute in
    (parseFilePromise plain_content no_decode example_document config_default []).2.

Definition example_scraped_only : list Post :=
  Eval vm_compute in
    match (parseFilePromise plain_content no_decode example_document
             config_scraped_only []).1 with
    | Ok posts => posts
    | Throw _ => []
    end.

Definition example_scraped_only_console : Console :=
  Eval vm_compute in
    (parseFilePromise plain_content no_decode example_document config_scraped_only []).2.

(** The cover image of the scenario where the conditions of the merge are
    not met: an attachment that is attached to no post, a later post with
    the identifier of the post, an earlier [_thumbnail_id] entry, and a
    later attachment with the identifier of the attachment. *)
Definition attachment_unattached : RawItem :=
  item_of "attachment" "inherit" "42" "0" "https://example.com/cover-2/" ""
          None None (txt "https://example.com/wp-content/uploads/2020/01/cover.jpg").

Definition post_same_id : RawItem :=
  item_of "post" "publish" "5" "0" "https://example.com/again/" "<p>again</p>"
          None None None.

Definition post_two_cover_ids : RawItem :=
  item_of "post" "publish" "5" "0" "https://example.com/cover/" "<p>cover</p>"
          (Some [thumbnail "41"; thumbnail "42"]) None None.

Definition attachment_42_later : RawItem :=
  item_of "attachment" "inherit" "42" "5" "https://example.com/cover/later/" ""
          None None (txt "https://example.com/wp-content/uploads/2020/01/later.jpg").

(** The cover images of the posts that the pipeline returns. *)
Definition cover_images (data : Data) (config : Config) : Result (list value) :=
  match (parseFilePromise plain_content no_decode data config []).1 with
  | Ok posts => Ok (map (fun p => f_coverImage (frontmatter p)) posts)
  | Throw e => Throw e
  end.

(** ** What the specification says, in its own words *)

(** The first value of a tag, [undefined] when there is none. *)
Definition peek (f : Field) : value :=
  match f with
  | Some (s :: _) => VString s
  | _ => VUndefined
  end.

(** An item is selected when its post type is one of the configured types
    and its status is neither [trash] nor [draft]. *)
Definition type_selected (config : Config) (it : RawItem) : bool :=
  includes_str (split "," (postTypes config)) (peek (post_type it)).
Definition status_kept (it : RawItem) : bool :=
  negb (strict_eq (peek (status it)) (VString "trash"))
  && negb (strict_eq (peek (status it)) (VString "draft")).
Definition selected (config : Config) (it : RawItem) : bool :=
  type_selected config it && status_kept it.

(** The items of the document, none when the channel is missing. *)
Definition items_of (data : Data) : list RawItem :=
  match channel_items data with
  | Ok items => items
  | Throw _ => []
  end.

(** The text values of the category entries of a taxonomy domain. *)
Definition entries_of_domain (d : string) (it : RawItem) : list value :=
  match category it with
  | None => []
  | Some cats =>
      map text_of
        (List.filter (fun c => match c with
                               | CatElem dom _ => bool_decide (dom = Some d)
                               | CatText _ => false
                               end) cats)
  end.

(** No match of the image pattern that starts in [pre] extends beyond
    [pre] into the text [s] that follows it. *)
Fixpoint no_match_into (pre s : list ascii) : bool :=
  match pre with
  | [] => true
  | _ :: pre' =>
      match RegExp.match_here true img_re (pre ++ s) with
      | Some (len, _, _) => (len <=? length pre)%nat
      | None => true
      end && no_match_into pre' s
  end.

(** The elements of a list in the order of their first occurrence. *)
Fixpoint first_occurrences (l : list value) : list value :=
  match l with
  | [] => []
  | x :: l' => x :: List.filter (fun y => negb (strict_eq y x)) (first_occurrences l')
  end.

(** The post object, by its index in [posts], that owns an image: the one
    the lookup built from [posts] gives for the image's [postId]. *)
Definition owner (posts : list Post) (image : ImageRef) : option nat :=
  match lookup_get posts (build_lookup posts) (toPropertyKey (i_postId image)) with
  | RPost i => Some i
  | _ => None
  end.
Definition owned_by (posts : list Post) (i : nat) (image : ImageRef) : bool :=
  bool_decide (owner posts image = Some i).

(** An image's [postId] matches a post's [meta.id] when both name the same
    property of the lookup. *)
Definition matches_post (image : ImageRef) (p : Post) : Prop :=
  toPropertyKey (i_postId image) = toPropertyKey (m_id (meta p)).

(** What the merge is said to leave alone: everything but
    [frontmatter.coverImage] and [meta.imageUrls]. *)
Definition same_but_images (p p' : Post) : Prop :=
  m_id (meta p') = m_id (meta p)
  /\ m_slug (meta p') = m_slug (meta p)
  /\ m_coverImageId (meta p') = m_coverImageId (meta p)
  /\ m_type (meta p') = m_type (meta p)
  /\ f_title (frontmatter p') = f_title (frontmatter p)
  /\ f_date (frontmatter p') = f_date (frontmatter p)
  /\ f_slug (frontmatter p') = f_slug (frontmatter p)
  /\ f_link (frontmatter p') = f_link (frontmatter p)
  /\ f_creator (frontmatter p') = f_creator (frontmatter p)
  /\ f_description (frontmatter p') = f_description (frontmatter p)
  /\ f_commentStatus (frontmatter p') = f_commentStatus (frontmatter p)
  /\ f_pingStatus (frontmatter p') = f_pingStatus (frontmatter p)
  /\ f_isSticky (frontmatter p') = f_isSticky (frontmatter p)
  /\ f_categories (frontmatter p') = f_categories (frontmatter p)
  /\ f_tags (frontmatter p') = f_tags (frontmatter p)
  /\ content p' = content p.

(** What one image does to the post that owns it. *)
Definition add_url (urls : list value) (u : value) : list value :=
  if includes urls u then urls else urls ++ [u].

Definition merged_post (decode : string -> string) (p : Post) (image : ImageRef) : Post :=
  let p1 :=
    if strict_eq (i_id image) (m_coverImageId (meta p)) then
      match getFilenameFromUrl decode (i_url image) with
      | Ok name => set_coverImage p name
      | Throw _ => p
      end
    else p in
  if includes (m_imageUrls (meta p1)) (i_url image) then p1
  else push_imageUrl p1 (i_url image).

(** An image is a cover image of a post when its [id] is the post's
    [coverImageId]. *)
Definition is_cover_of (p : Post) (image : ImageRef) : bool :=
  strict_eq (i_id image) (m_coverImageId (meta p)).

(** The keys that the lookup object can inherit: the properties of
    [Object.prototype] and, once a post has replaced the prototype, the
    properties of a post record. *)
Definition inherited_keys : list string :=
  Object_prototype_keys ++ ["meta"; "frontmatter"; "content"].

(** Checks of a property on all of [z, z + n). *)
Fixpoint check_from (check : Z -> bool) (n : nat) (z : Z) : bool :=
  match n with
  | O => true
  | S n' => check z && check_from check n' (z + 1)
  end.

(** The year, in UTC, of a point in time. *)
Definition utc_year (ts : Z) : Z := (Luxon.civil_from_days (ts / 86400)).1.1.

(** Strings of four and of two decimal digits. *)
Definition four_digits (s : string) : bool :=
  match list_ascii_of_string s with
  | [a; b; c; d] =>
      Luxon.is_digit a && Luxon.is_digit b && Luxon.is_digit c && Luxon.is_digit d
  | _ => false
  end.
Definition two_digits (s : string) : bool :=
  match list_ascii_of_string s with
  | [a; b] => Luxon.is_digit a && Luxon.is_digit b
  | _ => false
  end.

(** The month and the day of a day of the era are a month and a day. *)
Definition calendar_check (doe : Z) : bool :=
  let '(_, m1, d1) := Luxon.civil_of_doe doe in
  ((1 <=? m1) && (m1 <=? 12) && (1 <=? d1) && (d1 <=? 31))%Z.

(** An ISO calendar date [YYYY-MM-DD]. *)
Definition digit (c : ascii) : bool := Luxon.is_digit c.
Definition iso_date_shape (s : string) : bool :=
  match list_ascii_of_string s with
  | [y1; y2; y3; y4; d1; m1; m2; d2; a1; a2] =>
      digit y1 && digit y2 && digit y3 && digit y4 && bool_decide (d1 = "-"%char)
      && digit m1 && digit m2 && bool_decide (d2 = "-"%char) && digit a1 && digit a2
  | _ => false
  end.

(** ** Further notions *)

(** A category node with attributes, an object with a [$] property. *)
Definition has_attributes (c : CategoryNode) : bool :=
  match c with
  | CatElem _ _ => true
  | CatText _ => false
  end.

(** The first postmeta entry whose key is [_thumbnail_id]. *)
Definition first_thumbnail (metas : list PostMeta) : option PostMeta :=
  List.find (fun pm => strict_eq (peek (meta_key pm)) (VString "_thumbnail_id")) metas.

(** The tags of which [extractPost] reads the first value. *)
Definition required_fields (it : RawItem) : list Field :=
  [post_id it; post_name it; post_type it; title it; pubDate it; link it; creator it;
   description it; comment_status it; ping_status it; is_sticky it].

Definition is_string (v : value) : Prop := exists s, v = VString s.

(** A document whose channel has no item. *)
Definition empty_export : Data :=
  {| rss := Some {| channel := Some [ {| item := None |} ] |} |}.

(** An item without a description. *)
Definition post_without_description : RawItem :=
  {| post_type := txt "post"; status := txt "publish"; post_id := txt "9";
     post_name := txt "item-9"; post_parent := txt "0";
     pubDate := txt "Wed, 01 Jan 2020 00:00:00 +0000";
     link := txt "https://example.com/nine/"; creator := txt "admin";
     title := txt "Item 9"; description := None;
     comment_status := txt "open"; ping_status := txt "open"; is_sticky := txt "0";
     encoded := Some ["<p>nine</p>"; ""];
     attachment_url := None; postmeta := None; category := None; tags := None |}.

(** The image extensions, as the i flag compares them, and the strings
    that end in one of them. *)
Definition image_extensions : list (list ascii) :=
  map list_ascii_of_string [".GIF"; ".JPG"; ".JPEG"; ".PNG"].
Definition has_image_extension (s : string) : Prop :=
  exists stem ext, list_ascii_of_string s = stem ++ ext
                   /\ map RegExp.canon ext ∈ image_extensions.

(** A draft with an image in its body and an empty link. *)
Definition draft_without_link : RawItem :=
  item_of "post" "draft" "7" "0" "" ("<p>" +:+ img_tag "later.png" +:+ "</p>")
          None None None.

(** The key of a post in the lookup. *)
Definition post_key (p : Post) : string := toPropertyKey (m_id (meta p)).

(** The file-name helper returns for the URL of an image whenever the
    image is the cover image of the post that owns it. *)
Definition cover_name_found (decode : string -> string) (posts : list Post)
    (image : ImageRef) : Prop :=
  forall i p, owner posts image = Some i -> posts !! i = Some p ->
              is_cover_of p image = true ->
              exists name, getFilenameFromUrl decode (i_url image) = Ok name.

(** An image that the loop of the merge gets past: the lookup gives a
    post or a falsy value for its [postId], and the file-name helper
    returns for its URL when it is the cover image of that post. *)
Definition mergeable (decode : string -> string) (posts : list Post) (image : ImageRef)
  : Prop :=
  lookup_get posts (build_lookup posts) (toPropertyKey (i_postId image)) <> RForeign
  /\ cover_name_found decode posts image.

(** An item with two cover-image entries. *)
Definition post_two_thumbnails : RawItem :=
  item_of "post" "publish" "6" "0" "https://example.com/two/" "<p>two</p>"
          (Some [thumbnail "42"; thumbnail "43"]) None None.

(** An item whose body has no markup. *)
Definition post_plain : RawItem :=
  item_of "post" "publish" "8" "0" "https://example.com/plain/" "no markup here"
          None None None.

(** The attached images of the example document. *)
Definition example_attached : list ImageRef :=
  Eval vm_compute in
    match collectAttachedImages_array example_document with
    | Ok images => images
    | Throw _ => []
    end.

(** Two posts with the same identifier, and an image for it. *)
Definition duplicate_posts : list Post :=
  [post_record "1" (VString "42"); post_record "1" VUndefined].
Definition duplicate_images : list ImageRef :=
  [image_ref (VString "42") "1" "https://example.com/a.png"].
Definition duplicate_result : list Post :=
  Eval vm_compute in
    match mergeImagesIntoPosts no_decode duplicate_images duplicate_posts with
    | Ok posts => posts
    | Throw _ => []
    end.

(** A second batch of images for the posts of the example result. *)
Definition more_images : list ImageRef :=
  [image_ref (VNumber (-1)) "1" "https://example.com/post/photo.png";
   image_ref (VNumber (-1)) "1" "https://example.com/new.png"].
Definition example_result_more : list Post :=
  Eval vm_compute in
    match mergeImagesIntoPosts no_decode more_images example_result with
    | Ok posts => posts
    | Throw _ => []
    end.

(** An image of a post that the document does not hold. *)
Definition image_of_missing_post : ImageRef :=
  image_ref (VString "77") "99" "https://example.com/wp-content/uploads/gone.png".

(** * Properties *)

(** ** The result and console monads *)

Lemma bind_Ok {A B} (r : Result A) (k : A -> Result B) (b : B) :
  bind r k = Ok b <-> exists a, r = Ok a /\ k a = Ok b.
Proof.
  destruct r as [a|e]; simpl; split.
  - intros H. exists a. auto.
  - intros (a' & Ha & Hk). congruence.
  - discriminate.
  - intros (a' & Ha & _). discriminate.
Qed.

Ltac inv_bind H :=
  let a := fresh "a" in
  let Ha := fresh "E" in
  apply bind_Ok in H as (a & Ha & H).

Lemma index0_peek (f : Field) (v : value) : index0 f = Ok v -> v = peek f.
Proof. destruct f as [[|s l]|]; simpl; intros H; congruence. Qed.

Lemma filterM_Ok {A} (f : A -> Result bool) (g : A -> bool) (l r : list A) :
  filterM f l = Ok r ->
  (forall x b, x ∈ l -> f x = Ok b -> b = g x) ->
  r = List.filter g l /\ Forall (fun x => f x = Ok (g x)) l.
Proof.
  revert r. induction l as [|x l IH]; simpl; intros r H Hg.
  - split; [congruence | constructor].
  - inv_bind H. inv_bind H.
    destruct (IH a0) as [-> Hall]; [done | intros; eapply Hg; [by right | done] |].
    assert (a = g x) as -> by (eapply Hg; [by left | done]).
    split; [destruct (g x); congruence | by constructor].
Qed.

Lemma filterM_total {A} (f : A -> Result bool) (g : A -> bool) (l : list A) :
  Forall (fun x => f x = Ok (g x)) l -> filterM f l = Ok (List.filter g l).
Proof.
  induction 1 as [|x l Hx _ IH]; simpl; [done|].
  rewrite Hx, IH. simpl. by destruct (g x).
Qed.

Lemma mapM_Ok {A B} (f : A -> Result B) (l : list A) (r : list B) :
  mapM_ f l = Ok r <-> Forall2 (fun x y => f x = Ok y) l r.
Proof.
  revert r. induction l as [|x l IH]; simpl; intros r; split.
  - intros [= <-]. constructor.
  - by inversion 1.
  - intros H. inv_bind H. inv_bind H. injection H as <-.
    constructor; [done | by apply IH].
  - inversion 1 as [|? y ? r' Hy Hr]; subst.
    rewrite Hy. simpl. apply IH in Hr. rewrite Hr. done.
Qed.

Lemma filter_filter_andb {A} (f g : A -> bool) (l : list A) :
  List.filter g (List.filter f l) = List.filter (fun x => f x && g x) l.
Proof.
  induction l as [|x l IH]; simpl; [done|].
  destruct (f x); simpl; [destruct (g x)|]; by rewrite IH.
Qed.

Section Properties.

Variable getPostContent : RawItem -> Config -> Result value.
Variable decode : string -> string.

(** ** Item selection and post collection *)

Lemma collectPosts_console data config out :
  collectPosts getPostContent data config out =
  match collectPosts_array getPostContent data config with
  | Ok posts => (Ok posts, out ++ [pretty (length posts) +:+ " posts found."])
  | Throw e => (Throw e, out)
  end.
Proof.
  unfold collectPosts, bindM, liftM, console_log, retM.
  by destruct (collectPosts_array getPostContent data config).
Qed.

Lemma getItemsOfTypes_Ok data types l :
  getItemsOfTypes data types = Ok l ->
  l = List.filter (fun it => includes_str types (peek (post_type it))) (items_of data)
  /\ Forall (fun it => post_type it <> None) (items_of data).
Proof.
  unfold getItemsOfTypes, items_of. intros H. inv_bind H. rewrite E.
  apply (filterM_Ok _ (fun it => includes_str types (peek (post_type it)))) in H
    as [-> Hall].
  - split; [done|]. eapply Forall_impl; [exact Hall|].
    intros it Hit. simpl in Hit. by destruct (post_type it).
  - intros it b _ Hb. simpl in Hb. inv_bind Hb.
    apply index0_peek in E0 as ->. congruence.
Qed.

Lemma notTrashOrDraft_Ok post b :
  notTrashOrDraft post = Ok b -> b = status_kept post.
Proof.
  unfold notTrashOrDraft, status_kept. intros H. inv_bind H.
  apply index0_peek in E as ->.
  destruct (negb (strict_eq (peek (status post)) (VString "trash"))); simpl in *.
  - inv_bind H. apply index0_peek in E as ->. congruence.
  - congruence.
Qed.

Lemma collectPosts_array_Ok data config posts :
  collectPosts_array getPostContent data config = Ok posts ->
  Forall2 (fun it p => extractPost getPostContent config it = Ok p)
          (List.filter (selected config) (items_of data)) posts.
Proof.
  unfold collectPosts_array. intros H. inv_bind H. inv_bind H.
  apply getItemsOfTypes_Ok in E as [-> _].
  apply (filterM_Ok _ status_kept) in E0 as [-> _];
    [| intros it b _ Hb; by apply notTrashOrDraft_Ok in Hb].
  rewrite filter_filter_andb in H. by apply mapM_Ok in H.
Qed.

(** C1. The posts that [collectPosts] returns are, in the order of the
    document, the records extracted from exactly the items whose post
    type is among the configured types and whose status is neither
    [trash] nor [draft]: one record per such item. *)
Theorem collectPosts_one_record_per_selected_item data config out posts out' :
  collectPosts getPostContent data config out = (Ok posts, out') ->
  Forall2 (fun it p => extractPost getPostContent config it = Ok p)
          (List.filter (selected config) (items_of data)) posts
  /\ length posts = length (List.filter (selected config) (items_of data)).
Proof.
  rewrite collectPosts_console.
  destruct (collectPosts_array getPostContent data config) as [ps|e] eqn:E;
    [|discriminate].
  intros [= <- _]. apply collectPosts_array_Ok in E.
  split; [done|]. symmetry. by eapply Forall2_length.
Qed.

(** X20. [collectPosts] does return its posts on a document whose channel has
    items, all with a post type, those of a configured type with a
    status, and whose selected items can all be extracted. *)
Lemma collectPosts_returns data config out items :
  channel_items data = Ok items ->
  Forall (fun it => post_type it <> None) items ->
  Forall (fun it => type_selected config it = true -> status it <> None) items ->
  Forall (fun it => selected config it = true ->
                    exists p, extractPost getPostContent config it = Ok p) items ->
  exists posts,
    collectPosts getPostContent data config out =
    (Ok posts, out ++ [pretty (length posts) +:+ " posts found."]).
Proof.
  intros Hitems Htype Hstatus Hext.
  assert (exists posts, collectPosts_array getPostContent data config = Ok posts)
    as [posts Hposts].
  { unfold collectPosts_array, getItemsOfTypes. rewrite Hitems. simpl.
    rewrite (filterM_total _ (type_selected config)).
    2:{ eapply Forall_impl; [exact Htype|]. intros it Hit. simpl.
        simpl in Hit. unfold type_selected.
        destruct (post_type it) as [[|??]|]; simpl; congruence. }
    simpl. rewrite (filterM_total _ status_kept).
    2:{ apply Forall_forall. intros it Hit.
        apply list_elem_of_In, filter_In in Hit as [Hit Hsel].
        rewrite Forall_forall in Hstatus.
        specialize (Hstatus it ltac:(by apply list_elem_of_In) Hsel).
        unfold notTrashOrDraft, status_kept.
        destruct (status it) as [[|??]|]; [ | |congruence]; simpl; [done|].
        by destruct (negb (strict_eq _ _)). }
    simpl. rewrite filter_filter_andb.
    assert (Forall (fun it => exists p, extractPost getPostContent config it = Ok p)
              (List.filter (fun x => type_selected config x && status_kept x) items))
      as Hall.
    { apply Forall_forall. intros it Hit.
      apply list_elem_of_In, filter_In in Hit as [Hit Hsel].
      rewrite Forall_forall in Hext. apply Hext; [by apply list_elem_of_In | done]. }
    induction Hall as [|it l [p Hp] _ [ps IH]]; simpl; [by eexists|].
    rewrite Hp. simpl. rewrite IH. simpl. by eexists. }
  exists posts. rewrite collectPosts_console. by rewrite Hposts.
Qed.

(** ** The merge *)

Lemma lookup_get_content (posts posts' : list Post) lk key :
  (forall i, content <$> posts' !! i = content <$> posts !! i) ->
  lookup_get posts' lk key = lookup_get posts lk key.
Proof.
  intros Hc. unfold lookup_get.
  destruct (proto lk) as [i|]; [|done].
  specialize (Hc i).
  destruct (posts' !! i) as [p'|], (posts !! i) as [p|]; simpl in Hc;
    try discriminate; [|done].
  injection Hc as ->. done.
Qed.

Lemma set_coverImage_same p v : same_but_images p (set_coverImage p v).
Proof. repeat split. Qed.

Lemma push_imageUrl_same p u : same_but_images p (push_imageUrl p u).
Proof. repeat split. Qed.

Lemma same_but_images_refl p : same_but_images p p.
Proof. repeat split. Qed.

Lemma same_but_images_trans p q r :
  same_but_images p q -> same_but_images q r -> same_but_images p r.
Proof.
  unfold same_but_images. intros H1 H2.
  repeat match goal with H : _ /\ _ |- _ => destruct H end.
  repeat split; congruence.
Qed.

Lemma merged_post_same p image : same_but_images p (merged_post decode p image).
Proof.
  unfold merged_post.
  destruct (strict_eq _ _); [destruct (getFilenameFromUrl _ _)|];
    destruct (includes _ _);
    eauto using same_but_images_refl, same_but_images_trans,
      set_coverImage_same, push_imageUrl_same.
Qed.

Lemma merged_posts_same images p :
  same_but_images p (fold_left (merged_post decode) images p).
Proof.
  revert p. induction images as [|image images IH]; simpl; intros p.
  - apply same_but_images_refl.
  - eapply same_but_images_trans; [apply merged_post_same | apply IH].
Qed.

(** One step of the loop, as a change of the post it resolves to. *)
Lemma mergeImage_Ok lk posts image posts1 :
  mergeImage decode lk posts image = Ok posts1 ->
  posts1 =
  imap (fun i p =>
          if bool_decide (lookup_get posts lk (toPropertyKey (i_postId image)) = RPost i)
          then merged_post decode p image else p) posts.
Proof.
  unfold mergeImage. intros H. apply list_eq. intros j.
  rewrite list_lookup_imap.
  destruct (lookup_get posts lk (toPropertyKey (i_postId image))) as [i| |] eqn:Hl;
    [| discriminate |].
  - destruct (posts !! i) as [post|] eqn:Hi.
    + inv_bind H. injection H as <-.
      assert (merged_post decode post image =
              (if includes (m_imageUrls (meta a)) (i_url image)
               then a else push_imageUrl a (i_url image))) as <-.
      { unfold merged_post. destruct (strict_eq _ _).
        - inv_bind E. rewrite E0. by injection E as <-.
        - by injection E as <-. }
      destruct (decide (j = i)) as [->|Hne].
      * rewrite list_lookup_insert_eq by (by eapply lookup_lt_Some).
        rewrite Hi. simpl. by rewrite bool_decide_eq_true_2.
      * rewrite list_lookup_insert_ne by done.
        destruct (posts !! j); simpl; [|done].
        rewrite bool_decide_eq_false_2; [done | congruence].
    + injection H as <-. destruct (posts !! j) eqn:Hj; simpl; [|done].
      rewrite bool_decide_eq_false_2; [done | congruence].
  - injection H as <-. by destruct (posts !! j).
Qed.

(** The loop, as a fold per post over the images resolved to it. *)
Lemma forEach_mergeImage_Ok lk images posts posts' :
  forEachM (mergeImage decode lk) images posts = Ok posts' ->
  posts' =
  imap (fun i p =>
          fold_left (merged_post decode)
            (List.filter
               (fun image =>
                  bool_decide
                    (lookup_get posts lk (toPropertyKey (i_postId image)) = RPost i))
               images) p) posts.
Proof.
  revert posts. induction images as [|image images IH]; simpl; intros posts H.
  - injection H as <-. apply list_eq. intros j. rewrite list_lookup_imap.
    by destruct (posts !! j).
  - inv_bind H. apply mergeImage_Ok in E. apply IH in H. subst posts'.
    assert (forall k, lookup_get a lk k = lookup_get posts lk k) as Hlk.
    { intros k. apply lookup_get_content. intros i. subst a.
      rewrite list_lookup_imap. destruct (posts !! i) as [p|]; simpl; [|done].
      destruct (bool_decide _); [|done].
      f_equal. apply (merged_post_same p image). }
    apply list_eq. intros j. subst a. rewrite !list_lookup_imap.
    destruct (posts !! j) as [p|]; simpl; [|done]. f_equal.
    erewrite filter_ext; [|intros x; by rewrite Hlk].
    by destruct (bool_decide _).
Qed.

Lemma mergeImagesIntoPosts_Ok images posts posts' :
  mergeImagesIntoPosts decode images posts = Ok posts' ->
  posts' =
  imap (fun i p =>
          fold_left (merged_post decode) (List.filter (owned_by posts i) images) p) posts.
Proof.
  unfold mergeImagesIntoPosts. intros H. apply forEach_mergeImage_Ok in H as ->.
  apply list_eq. intros j. rewrite !list_lookup_imap.
  destruct (posts !! j) as [p|]; simpl; [|done]. f_equal. f_equal.
  apply filter_ext. intros image. unfold owned_by, owner.
  destruct (lookup_get _ _ _); apply bool_decide_ext; split; congruence.
Qed.

Lemma merged_post_imageUrls p image :
  m_imageUrls (meta (merged_post decode p image)) =
  add_url (m_imageUrls (meta p)) (i_url image).
Proof.
  unfold merged_post, add_url.
  destruct (strict_eq _ _); [destruct (getFilenameFromUrl _ _)|]; simpl;
    by destruct (includes _ _).
Qed.

Lemma merged_posts_imageUrls images p :
  m_imageUrls (meta (fold_left (merged_post decode) images p)) =
  fold_left add_url (map i_url images) (m_imageUrls (meta p)).
Proof.
  revert p. induction images as [|image images IH]; simpl; intros p; [done|].
  by rewrite IH, merged_post_imageUrls.
Qed.

Lemma includes_spec (l : list value) (u : value) : includes l u = true <-> u ∈ l.
Proof. unfold includes. apply bool_decide_eq_true. Qed.

Lemma first_occurrences_elem (l : list value) (u : value) :
  u ∈ first_occurrences l <-> u ∈ l.
Proof.
  induction l as [|x l IH]; simpl; [done|].
  rewrite !elem_of_cons, <- IH, list_elem_of_In, filter_In, <- list_elem_of_In.
  unfold strict_eq. destruct (decide (u = x)) as [->|Hne]; [tauto|].
  rewrite bool_decide_eq_false_2 by done. simpl. tauto.
Qed.

Lemma NoDup_first_occurrences (l : list value) : NoDup (first_occurrences l).
Proof.
  apply NoDup_ListNoDup.
  induction l as [|x l IH]; simpl; constructor.
  - rewrite filter_In. unfold strict_eq.
    rewrite bool_decide_eq_true_2 by done. simpl. intros [_ [=]].
  - by apply List.NoDup_filter.
Qed.

(** Appending the unseen URLs one by one lists them in the order of
    their first occurrence. *)
Lemma fold_add_url (l acc : list value) :
  fold_left add_url l acc =
  acc ++ List.filter (fun y => negb (includes acc y)) (first_occurrences l).
Proof.
  revert acc. induction l as [|x l IH]; simpl; intros acc.
  - by rewrite app_nil_r.
  - rewrite IH. unfold add_url. destruct (includes acc x) eqn:Hx; simpl.
    + f_equal. rewrite filter_filter_andb. apply filter_ext. intros y.
      unfold strict_eq. case_bool_decide; simpl; [by subst; rewrite Hx | done].
    + rewrite <- app_assoc. simpl. do 2 f_equal.
      rewrite filter_filter_andb. apply filter_ext. intros y.
      unfold includes, strict_eq.
      destruct (decide (y = x)) as [->|Hne].
      * rewrite (bool_decide_eq_true_2 (x = x)) by done.
        rewrite (bool_decide_eq_true_2 (x ∈ acc ++ [x]))
          by (apply elem_of_app; right; by apply list_elem_of_singleton).
        by rewrite andb_false_l.
      * rewrite (bool_decide_eq_false_2 (y = x)) by done. simpl.
        f_equal. apply bool_decide_ext.
        rewrite elem_of_app, list_elem_of_singleton. tauto.
Qed.

Lemma fold_add_url_nil (l : list value) : fold_left add_url l [] = first_occurrences l.
Proof.
  rewrite fold_add_url. simpl.
  induction (first_occurrences l) as [|x l' IH]; simpl; [done | by f_equal].
Qed.

(** The file name comes from the last cover image among the images of a post. *)
Lemma merged_posts_coverImage images p :
  (forall image, image ∈ images -> is_cover_of p image = true ->
                 exists name, getFilenameFromUrl decode (i_url image) = Ok name) ->
  match last (List.filter (is_cover_of p) images) with
  | Some image =>
      getFilenameFromUrl decode (i_url image) =
      Ok (f_coverImage (frontmatter (fold_left (merged_post decode) images p)))
  | None =>
      f_coverImage (frontmatter (fold_left (merged_post decode) images p)) =
      f_coverImage (frontmatter p)
  end.
Proof.
  induction images as [|x images IH] using rev_ind; intros Hok; [done|].
  rewrite fold_left_app, List.filter_app. simpl.
  pose proof (merged_posts_same images p) as Hsame.
  set (q := fold_left (merged_post decode) images p) in *.
  assert (m_coverImageId (meta q) = m_coverImageId (meta p)) as Hcov
    by (destruct Hsame as (_ & _ & H & _); exact H).
  unfold merged_post. unfold is_cover_of at 2. rewrite Hcov.
  destruct (is_cover_of p x) eqn:Hx; unfold is_cover_of in Hx; rewrite Hx.
  - rewrite last_snoc.
    destruct (Hok x) as [name Hname]; [set_solver | done |].
    rewrite Hname. by destruct (includes _ _).
  - rewrite app_nil_r.
    assert (f_coverImage
              (frontmatter
                 (if includes (m_imageUrls (meta q)) (i_url x)
                  then q else push_imageUrl q (i_url x))) =
            f_coverImage (frontmatter q)) as Hq by (by destruct (includes _ _)).
    specialize (IH ltac:(intros; apply Hok; [set_solver | done])).
    destruct (last _); by rewrite Hq.
Qed.

(** When the loop completes, every cover image it met had a file name. *)
Lemma forEach_mergeImage_names lk images posts posts' image i p :
  forEachM (mergeImage decode lk) images posts = Ok posts' ->
  image ∈ images ->
  posts !! i = Some p ->
  lookup_get posts lk (toPropertyKey (i_postId image)) = RPost i ->
  is_cover_of p image = true ->
  exists name, getFilenameFromUrl decode (i_url image) = Ok name.
Proof.
  revert posts p. induction images as [|x images IH]; simpl; intros posts p H Hin Hp Hl Hc.
  - by apply elem_of_nil in Hin.
  - inv_bind H. apply elem_of_cons in Hin as [->|Hin].
    + unfold mergeImage in E. rewrite Hl, Hp in E. unfold is_cover_of in Hc.
      rewrite Hc in E. inv_bind E. inv_bind E0. eauto.
    + pose proof (mergeImage_Ok _ _ _ _ E) as Ha.
      assert (exists p1, a !! i = Some p1 /\ same_but_images p p1) as (p1 & Hp1 & Hs).
      { subst a. rewrite list_lookup_imap, Hp. simpl. eexists. split; [done|].
        destruct (bool_decide _);
          [apply merged_post_same | apply same_but_images_refl]. }
      eapply (IH a p1); [done | done | done | |].
      * rewrite <- Hl. apply lookup_get_content. intros j. subst a.
        rewrite list_lookup_imap. destruct (posts !! j) as [pj|]; simpl; [|done].
        destruct (bool_decide _); [|done]. f_equal. apply (merged_post_same pj x).
      * unfold is_cover_of in *. destruct Hs as (_ & _ & -> & _). done.
Qed.

(** ** The stages of [parseFilePromise] *)

Lemma parseFilePromise_Ok data config out posts' out' :
  parseFilePromise getPostContent decode data config out = (Ok posts', out') ->
  exists posts attached scraped,
    collectPosts_array getPostContent data config = Ok posts
    /\ (if saveAttachedImages config
        then collectAttachedImages_array data = Ok attached else attached = [])
    /\ (if saveScrapedImages config
        then collectScrapedImages_array data config = Ok scraped else scraped = [])
    /\ mergeImagesIntoPosts decode (attached ++ scraped) posts = Ok posts'.
Proof.
  unfold parseFilePromise, collectImages, collectPosts, collectAttachedImages,
    collectScrapedImages, bindM, liftM, console_log, retM.
  destruct (collectPosts_array getPostContent data config) as [posts|] eqn:Hp;
    [|discriminate].
  destruct (saveAttachedImages config), (saveScrapedImages config);
    repeat match goal with
           | |- context [match ?r with Ok _ => _ | Throw _ => _ end] =>
               destruct r eqn:?; try discriminate
           end;
    intros [= H _]; try subst posts'; eauto 10.
Qed.

Lemma mergeImagesIntoPosts_length images posts posts' :
  mergeImagesIntoPosts decode images posts = Ok posts' -> length posts' = length posts.
Proof. intros H. apply mergeImagesIntoPosts_Ok in H as ->. apply length_imap. Qed.

(** C8. The merge changes nothing of a post record but
    [frontmatter.coverImage] and [meta.imageUrls]: the posts after it are
    the posts before it, one for one, with the same [meta.id],
    [meta.slug], [meta.coverImageId], [meta.type], the same other
    front-matter fields and the same content. *)
Theorem mergeImagesIntoPosts_frame images posts posts' :
  mergeImagesIntoPosts decode images posts = Ok posts' ->
  length posts' = length posts /\ Forall2 same_but_images posts posts'.
Proof.
  intros H. apply mergeImagesIntoPosts_Ok in H as ->.
  split; [by rewrite length_imap|].
  apply Forall2_same_length_lookup. split; [by rewrite length_imap|].
  intros i p p' Hp. rewrite list_lookup_imap, Hp. simpl. intros [= <-].
  apply merged_posts_same.
Qed.

Lemma mergeImagesIntoPosts_imageUrls images posts posts' i p' :
  Forall (fun p => m_imageUrls (meta p) = []) posts ->
  mergeImagesIntoPosts decode images posts = Ok posts' ->
  posts' !! i = Some p' ->
  m_imageUrls (meta p') =
  first_occurrences (map i_url (List.filter (owned_by posts i) images)).
Proof.
  intros Hnil H Hp'. apply mergeImagesIntoPosts_Ok in H as ->.
  rewrite list_lookup_imap in Hp'.
  destruct (posts !! i) as [p|] eqn:Hp; [|discriminate]. injection Hp' as <-.
  rewrite merged_posts_imageUrls.
  rewrite Forall_forall in Hnil. rewrite (Hnil p) by (by eapply list_elem_of_lookup_2).
  apply fold_add_url_nil.
Qed.

Lemma extractPost_fresh config it p :
  extractPost getPostContent config it = Ok p ->
  m_imageUrls (meta p) = [] /\ f_coverImage (frontmatter p) = VUndefined.
Proof.
  unfold extractPost. intros H. repeat inv_bind H. by injection H as <-.
Qed.

Lemma collectPosts_array_fresh data config posts :
  collectPosts_array getPostContent data config = Ok posts ->
  Forall (fun p => m_imageUrls (meta p) = [] /\ f_coverImage (frontmatter p) = VUndefined)
         posts.
Proof.
  intros H. apply collectPosts_array_Ok in H.
  induction H as [|it p ? ? Hp _ IH]; constructor; [|done].
  by eapply extractPost_fresh.
Qed.

(** C3. After the merge every post's [meta.imageUrls] is without
    duplicates and lists the URLs of the images of that post in the
    order of their first occurrence in the merged image sequence, the
    attached images (when enabled) before the scraped ones (when
    enabled). *)
Theorem imageUrls_unique_in_first_occurrence_order data config out posts' out' :
  parseFilePromise getPostContent decode data config out = (Ok posts', out') ->
  exists posts attached scraped,
    collectPosts_array getPostContent data config = Ok posts
    /\ (if saveAttachedImages config
        then collectAttachedImages_array data = Ok attached else attached = [])
    /\ (if saveScrapedImages config
        then collectScrapedImages_array data config = Ok scraped else scraped = [])
    /\ length posts' = length posts
    /\ forall i p', posts' !! i = Some p' ->
         NoDup (m_imageUrls (meta p'))
         /\ m_imageUrls (meta p') =
            first_occurrences
              (map i_url (List.filter (owned_by posts i) (attached ++ scraped))).
Proof.
  intros H. apply parseFilePromise_Ok in H as (posts & att & scr & Hp & Ha & Hs & Hm).
  exists posts, att, scr. repeat split; try done.
  - by apply mergeImagesIntoPosts_length in Hm.
  - erewrite mergeImagesIntoPosts_imageUrls; [apply NoDup_first_occurrences | | done..].
    eapply Forall_impl; [by eapply collectPosts_array_fresh|]. by intros ? [? _].
  - eapply mergeImagesIntoPosts_imageUrls; [|done..].
    eapply Forall_impl; [by eapply collectPosts_array_fresh|]. by intros ? [? _].
Qed.

Lemma mergeImagesIntoPosts_coverImage images posts posts' i p p' :
  mergeImagesIntoPosts decode images posts = Ok posts' ->
  posts !! i = Some p ->
  posts' !! i = Some p' ->
  match last (List.filter (fun image => owned_by posts i image && is_cover_of p image)
                          images) with
  | Some image => getFilenameFromUrl decode (i_url image) = Ok (f_coverImage (frontmatter p'))
  | None => f_coverImage (frontmatter p') = f_coverImage (frontmatter p)
  end.
Proof.
  intros H Hp Hp'. pose proof (mergeImagesIntoPosts_Ok _ _ _ H) as ->.
  rewrite list_lookup_imap, Hp in Hp'. injection Hp' as <-.
  rewrite <- filter_filter_andb. apply merged_posts_coverImage.
  intros image Hin Hc. apply list_elem_of_In, filter_In in Hin as [Hin Ho].
  unfold mergeImagesIntoPosts in H.
  eapply forEach_mergeImage_names; [exact H | by apply list_elem_of_In | done | | done].
  unfold owned_by, owner in Ho. apply bool_decide_eq_true in Ho.
  destruct (lookup_get _ _ _); congruence.
Qed.

(** ** Scraped images and cover images *)

Lemma scrapePost_sentinel post images :
  scrapePost post = Ok images ->
  Forall (fun image => i_id image = VNumber (-1)) images.
Proof.
  unfold scrapePost. intros H. repeat inv_bind H.
  destruct a0; try discriminate. apply mapM_Ok in H.
  induction H as [|m1 image ? ? Hm _ IH]; [constructor|].
  constructor; [|done]. inv_bind Hm. by injection Hm as <-.
Qed.

Lemma collectScrapedImages_sentinel data config scraped :
  collectScrapedImages_array data config = Ok scraped ->
  Forall (fun image => i_id image = VNumber (-1)) scraped.
Proof.
  unfold collectScrapedImages_array. intros H. repeat inv_bind H.
  injection H as <-. apply mapM_Ok in E0. apply Forall_concat. clear E.
  induction E0 as [|post images ? ? Hp _ IH]; [constructor|].
  constructor; [by eapply scrapePost_sentinel | done].
Qed.

Lemma index0_string_or_undefined f v :
  index0 f = Ok v -> v = VUndefined \/ exists s, v = VString s.
Proof. destruct f as [[|s ?]|]; simpl; intros [= <-]; eauto. Qed.

Lemma getPostCoverImageId_string_or_undefined post v :
  getPostCoverImageId post = Ok v -> v = VUndefined \/ exists s, v = VString s.
Proof.
  unfold getPostCoverImageId. destruct (postmeta post); [|intros [= <-]; eauto].
  intros H. inv_bind H. destruct a; [|injection H as <-; eauto].
  by eapply index0_string_or_undefined.
Qed.

Lemma extractPost_coverImageId config it p :
  extractPost getPostContent config it = Ok p ->
  getPostCoverImageId it = Ok (m_coverImageId (meta p)).
Proof.
  unfold extractPost. intros H. repeat inv_bind H. by injection H as <-.
Qed.

Lemma extractPost_date config it p :
  extractPost getPostContent config it = Ok p ->
  getPostDate it = Ok (f_date (frontmatter p)).
Proof.
  unfold extractPost. intros H. repeat inv_bind H. by injection H as <-.
Qed.

Lemma extractPost_tags config it p :
  extractPost getPostContent config it = Ok p ->
  getTags it = Ok (f_tags (frontmatter p)).
Proof.
  unfold extractPost. intros H. repeat inv_bind H. by injection H as <-.
Qed.

Lemma extractPost_id config it p :
  extractPost getPostContent config it = Ok p ->
  m_id (meta p) = peek (post_id it).
Proof.
  unfold extractPost, getPostId. intros H. repeat inv_bind H. injection H as <-.
  simpl. by apply index0_peek.
Qed.

Lemma sentinel_is_no_cover p image :
  i_id image = VNumber (-1) ->
  m_coverImageId (meta p) = VUndefined \/ (exists s, m_coverImageId (meta p) = VString s) ->
  is_cover_of p image = false.
Proof. unfold is_cover_of. intros -> [->|[s ->]]; done. Qed.

Lemma filter_nil_Forall {A} (f : A -> bool) (l : list A) :
  Forall (fun x => f x = false) l -> List.filter f l = [].
Proof. induction 1 as [|x l Hx _ IH]; simpl; [done|]. by rewrite Hx. Qed.

(** C10. A scraped image carries the number -1 as its [id] and a post's
    [meta.coverImageId] is [undefined] or a string, so the cover-image
    comparison of the merge is false for every scraped image and every
    post; with attached images switched off no post of the result has
    a [frontmatter.coverImage]. *)
Theorem scraped_images_never_set_coverImage data config :
  (forall scraped posts image p,
      collectScrapedImages_array data config = Ok scraped ->
      collectPosts_array getPostContent data config = Ok posts ->
      image ∈ scraped -> p ∈ posts ->
      i_id image = VNumber (-1)
      /\ (m_coverImageId (meta p) = VUndefined
          \/ exists s, m_coverImageId (meta p) = VString s)
      /\ strict_eq (i_id image) (m_coverImageId (meta p)) = false)
  /\ (saveAttachedImages config = false ->
      forall out posts' out' p',
        parseFilePromise getPostContent decode data config out = (Ok posts', out') ->
        p' ∈ posts' ->
        f_coverImage (frontmatter p') = VUndefined).
Proof.
  assert (forall scraped posts image p,
             collectScrapedImages_array data config = Ok scraped ->
             collectPosts_array getPostContent data config = Ok posts ->
             image ∈ scraped -> p ∈ posts ->
             i_id image = VNumber (-1)
             /\ (m_coverImageId (meta p) = VUndefined
                 \/ exists s, m_coverImageId (meta p) = VString s)) as Hfacts.
  { intros scraped posts image p Hs Hp Hi Hin.
    apply collectScrapedImages_sentinel in Hs. rewrite Forall_forall in Hs.
    split; [by apply Hs|].
    apply collectPosts_array_Ok in Hp.
    apply list_elem_of_lookup in Hin as [i Hin].
    destruct (Forall2_lookup_r _ _ _ _ _ Hp Hin) as (it & _ & Hit).
    apply extractPost_coverImageId in Hit.
    by eapply getPostCoverImageId_string_or_undefined. }
  split.
  - intros scraped posts image p Hs Hp Hi Hin.
    destruct (Hfacts _ _ _ _ Hs Hp Hi Hin) as [Hid Hcov].
    repeat split; [done | done |]. by apply (sentinel_is_no_cover p image).
  - intros Hoff out posts' out' p' H Hin.
    apply parseFilePromise_Ok in H as (posts & att & scr & Hp & Ha & Hs & Hm).
    rewrite Hoff in Ha. subst att. simpl in Hm.
    apply list_elem_of_lookup in Hin as [i Hi].
    pose proof (mergeImagesIntoPosts_length _ _ _ Hm) as Hlen.
    destruct (lookup_lt_is_Some_2 posts i) as [p Hpi];
      [rewrite <- Hlen; by eapply lookup_lt_Some|].
    pose proof (mergeImagesIntoPosts_coverImage _ _ _ _ _ _ Hm Hpi Hi) as Hc.
    assert (scr = [] \/ collectScrapedImages_array data config = Ok scr) as Hscr
      by (destruct (saveScrapedImages config); auto).
    rewrite filter_nil_Forall in Hc.
    + simpl in Hc. rewrite Hc.
      apply collectPosts_array_fresh in Hp. rewrite Forall_forall in Hp.
      by apply Hp, list_elem_of_lookup_2 with i.
    + apply Forall_forall. intros image Himg.
      destruct Hscr as [->|Hscr]; [by apply elem_of_nil in Himg|].
      destruct (Hfacts scr posts image p) as [Hid Hcov];
        [done | done | done | by eapply list_elem_of_lookup_2 |].
      rewrite (sentinel_is_no_cover p image) by done. apply andb_false_r.
Qed.

(** ** The lookup object *)

Lemma build_lookup_snoc posts p :
  build_lookup (posts ++ [p]) =
  lookup_set (build_lookup posts) (toPropertyKey (m_id (meta p))) (length posts).
Proof.
  unfold build_lookup. rewrite imap_app, fold_left_app. simpl.
  by rewrite Nat.add_0_r.
Qed.

Lemma lookup_get_set store lk key i :
  lookup_get store (lookup_set lk key i) key = RPost i.
Proof.
  unfold lookup_get, lookup_set. case_bool_decide; simpl; [done|].
  by rewrite lookup_insert_eq.
Qed.

(** Last write wins: the key of the last post resolves to it. *)
Lemma lookup_get_last store posts p :
  lookup_get store (build_lookup (posts ++ [p])) (toPropertyKey (m_id (meta p))) =
  RPost (length posts).
Proof. rewrite build_lookup_snoc. apply lookup_get_set. Qed.

Lemma build_lookup_sound posts :
  (forall key i, own (build_lookup posts) !! key = Some i ->
                 exists p, posts !! i = Some p /\ toPropertyKey (m_id (meta p)) = key)
  /\ (forall i, proto (build_lookup posts) = Some i ->
                exists p, posts !! i = Some p
                          /\ toPropertyKey (m_id (meta p)) = "__proto__").
Proof.
  induction posts as [|p posts [IHo IHp]] using rev_ind.
  - split; [|discriminate]. intros key i H.
    change (own (build_lookup [])) with (∅ : gmap string nat) in H.
    by rewrite lookup_empty in H.
  - rewrite build_lookup_snoc. unfold lookup_set.
    case_bool_decide as Hk; simpl; split.
    + intros key i H. destruct (IHo key i H) as (q & Hq & Hkey).
      exists q. split; [by apply lookup_app_l_Some | done].
    + intros i [= <-]. exists p. split; [|done].
      rewrite lookup_app_r by done. by rewrite Nat.sub_diag.
    + intros key i. rewrite lookup_insert. case_decide as Hd.
      * intros [= <-]. exists p. split; [|done].
        rewrite lookup_app_r by done. by rewrite Nat.sub_diag.
      * intros H. destruct (IHo key i H) as (q & Hq & Hkey).
        exists q. split; [by apply lookup_app_l_Some | done].
    + intros i H. destruct (IHp i H) as (q & Hq & Hkey).
      exists q. split; [by apply lookup_app_l_Some | done].
Qed.

(** A key that names no post and that the lookup object cannot inherit
    gives [undefined]. *)
Lemma lookup_get_orphan store posts key :
  (forall p, p ∈ posts -> toPropertyKey (m_id (meta p)) <> key) ->
  key ∉ inherited_keys ->
  lookup_get store (build_lookup posts) key = RFalsy.
Proof.
  intros Hno Hkey. destruct (build_lookup_sound posts) as [Ho _].
  assert (own (build_lookup posts) !! key = None) as Hown.
  { destruct (own (build_lookup posts) !! key) as [i|] eqn:E; [|done].
    destruct (Ho key i E) as (p & Hp & Hk).
    exfalso. eapply Hno; [by eapply list_elem_of_lookup_2 | done]. }
  unfold inherited_keys in Hkey. rewrite elem_of_app in Hkey.
  assert (key ∉ Object_prototype_keys) as Hobj by tauto.
  assert (key <> "__proto__") as Hproto.
  { intros ->. apply Hobj. unfold Object_prototype_keys.
    repeat (first [by left | right]). }
  assert (key <> "meta" /\ key <> "frontmatter" /\ key <> "content") as (? & ? & ?).
  { repeat split; intros ->; apply Hkey; right; repeat (first [by left | right]). }
  unfold lookup_get. rewrite Hown.
  rewrite (bool_decide_eq_false_2 (key = "__proto__")) by done.
  rewrite (bool_decide_eq_false_2 (key ∈ Object_prototype_keys)) by done.
  destruct (proto (build_lookup posts)); [|done].
  by rewrite !bool_decide_eq_false_2 by done.
Qed.

(** The post that owns an image has the image's [postId] as its [meta.id]. *)
Lemma owner_sound posts image i :
  owner posts image = Some i ->
  exists p, posts !! i = Some p /\ matches_post image p.
Proof.
  unfold owner, lookup_get, matches_post.
  destruct (build_lookup_sound posts) as [Ho Hp].
  case_bool_decide as Hk.
  - destruct (proto (build_lookup posts)) as [j|] eqn:Hj; [|done].
    intros [= <-]. destruct (Hp j eq_refl) as (p & Hpj & Hkey). exists p. split; congruence.
  - destruct (own (build_lookup posts) !! toPropertyKey (i_postId image)) as [j|] eqn:Hj.
    + intros [= <-]. destruct (Ho _ j Hj) as (p & Hpj & Hkey). eauto.
    + destruct (proto (build_lookup posts)); repeat case_match; done.
Qed.

Lemma forEachM_app {S A} (f : S -> A -> Result S) (l1 l2 : list A) (st : S) :
  forEachM f (l1 ++ l2) st = bind (forEachM f l1 st) (forEachM f l2).
Proof.
  revert st. induction l1 as [|x l1 IH]; simpl; intros st; [done|].
  destruct (f st x); simpl; [apply IH | done].
Qed.

(** X21. An image whose [postId] matches no post, and is no key the lookup
    object inherits, is dropped: the merge with it is the merge without
    it. *)
Lemma mergeImagesIntoPosts_drops_orphan before image after posts :
  (forall p, p ∈ posts -> ~ matches_post image p) ->
  toPropertyKey (i_postId image) ∉ inherited_keys ->
  mergeImagesIntoPosts decode (before ++ image :: after) posts =
  mergeImagesIntoPosts decode (before ++ after) posts.
Proof.
  intros Hno Hkey. unfold mergeImagesIntoPosts. rewrite !forEachM_app.
  destruct (forEachM _ before posts) as [store|]; simpl; [|done].
  unfold mergeImage at 1.
  rewrite lookup_get_orphan; [done | | done].
  intros p Hp Heq. by apply (Hno p Hp).
Qed.

(** ** Categories and tags *)

Lemma filterM_domain d cats kept :
  filterM (domain_is d) cats = Ok kept ->
  kept = List.filter (fun c => match c with
                               | CatElem dom _ => bool_decide (dom = Some d)
                               | CatText _ => false
                               end) cats.
Proof.
  intros H. eapply filterM_Ok in H as [-> _]; [done|].
  intros [t|dom t] b _; simpl; congruence.
Qed.

(** [getCategories] is the projection of the entries of domain [category]. *)
Lemma getCategories_entries post l :
  getCategories post = Ok l -> l = entries_of_domain "category" post.
Proof.
  unfold getCategories, entries_of_domain. destruct (category post); [|congruence].
  intros H. inv_bind H. apply filterM_domain in E as ->. congruence.
Qed.

(** [getTags] is the projection of the entries of domain [post_tag] only
    on an item that has a [tags] element of its own. *)
Lemma getTags_entries post l :
  tags post <> None -> getTags post = Ok l -> l = entries_of_domain "post_tag" post.
Proof.
  unfold getTags, entries_of_domain. destruct (tags post); [|congruence].
  intros _. destruct (category post); [|discriminate].
  intros H. inv_bind H. apply filterM_domain in E as ->. congruence.
Qed.

Lemma getTags_without_tags_element post : tags post = None -> getTags post = Ok [].
Proof. unfold getTags. by intros ->. Qed.

(** C2. On an exported item, one without a [tags] element, whose
    categories hold an entry of domain [post_tag], [getTags] returns the
    empty list where the claim has the text of that entry;
    [getCategories] does project its domain. *)
Theorem getTags_misses_post_tag_entries :
  tags post_tagged = None
  /\ entries_of_domain "post_tag" post_tagged = [VString "rocq"]
  /\ getTags post_tagged = Ok []
  /\ getCategories post_tagged = Ok (entries_of_domain "category" post_tagged)
  /\ (forall p, extractPost getPostContent config_default post_tagged = Ok p ->
                f_tags (frontmatter p) = []).
Proof.
  repeat split.
  intros p H. apply extractPost_tags in H. by injection H as <-.
Qed.

(** ** Orphaned images *)

(** C6. An image whose [postId] matches no post but names a property
    that the lookup object inherits from [Object.prototype] is not
    dropped: the merge throws a TypeError, and so does the pipeline on a
    document with a post and an image attachment whose parent is
    [constructor]. *)
Theorem orphan_image_with_inherited_key_throws :
  let posts := [post_record "1" VUndefined] in
  let image := image_ref (VString "44") "constructor"
                         "https://example.com/wp-content/uploads/orphan.png" in
  (forall p, p ∈ posts -> ~ matches_post image p)
  /\ mergeImagesIntoPosts decode [image] posts = Throw TypeError
  /\ (parseFilePromise plain_content decode (document [post_hello; attachment_orphan])
        config_default []).1 = Throw TypeError.
Proof.
  split; [|split; reflexivity].
  intros p Hp. apply list_elem_of_singleton in Hp as ->. by intros [=].
Qed.

(** ** Scraped images *)

Lemma list_ascii_of_string_app (s1 s2 : string) :
  list_ascii_of_string (s1 +:+ s2) = list_ascii_of_string s1 ++ list_ascii_of_string s2.
Proof. induction s1 as [|c s1 IH]; simpl; [done | by rewrite IH]. Qed.

Lemma canon_lt (c : ascii) : RegExp.canon c = "<"%char -> c = "<"%char.
Proof. destruct c as [[] [] [] [] [] [] [] []]; vm_compute; congruence. Qed.

Lemma match_here_img_other (c : ascii) (s : list ascii) :
  c <> "<"%char -> RegExp.match_here true img_re (c :: s) = None.
Proof.
  intros Hc. unfold RegExp.match_here, img_re. simpl.
  rewrite bool_decide_eq_false_2; [done|].
  intros H. by apply Hc, canon_lt.
Qed.

(** No image tag starts in a text without [<]. *)
Lemma search_img_skip (pre s : list ascii) :
  "<"%char ∉ pre -> RegExp.search true img_re (pre ++ s) = RegExp.search true img_re s.
Proof.
  induction pre as [|c pre IH]; intros Hpre; [done|].
  apply not_elem_of_cons in Hpre as [Hc Hpre].
  change (RegExp.search true img_re ((c :: pre) ++ s)) with
    (match RegExp.match_here true img_re (c :: pre ++ s) with
     | Some found => Some found
     | None => RegExp.search true img_re (pre ++ s)
     end).
  rewrite match_here_img_other by congruence. by apply IH.
Qed.

(** The tag of the scenario is matched where it stands, whatever follows. *)
Lemma match_here_photo (rest : list ascii) :
  RegExp.match_here true img_re (list_ascii_of_string (img_tag "photo.png") ++ rest) =
  Some (21, rest, Some (list_ascii_of_string "photo.png")).
Proof. reflexivity. Qed.

(** What a match consumes is a prefix of the input: the continuation is
    reached on what is left after it. *)
Lemma star_greedy_consumes {R} ic cs (s : list ascii) :
  forall pos cap (k : RegExp.cont R) res,
    RegExp.star_greedy ic cs pos s cap k = Some res ->
    exists n cap', n <= length s /\ k (pos + n) (drop n s) cap' = Some res.
Proof.
  induction s as [|x s IH]; intros pos cap k res; simpl.
  - intros H. exists 0, cap. split; [simpl; lia | by rewrite Nat.add_0_r].
  - destruct (RegExp.cset_match ic cs x).
    + destruct (RegExp.star_greedy ic cs (S pos) s cap k) as [r|] eqn:E.
      * intros [= ->]. apply IH in E as (n & cap' & Hn & Hk).
        exists (S n), cap'. split; [simpl; lia|]. by rewrite Nat.add_succ_r.
      * intros H. exists 0, cap. split; [simpl; lia | by rewrite Nat.add_0_r].
    + intros H. exists 0, cap. split; [simpl; lia | by rewrite Nat.add_0_r].
Qed.

Lemma star_lazy_consumes {R} ic cs (s : list ascii) :
  forall pos cap (k : RegExp.cont R) res,
    RegExp.star_lazy ic cs pos s cap k = Some res ->
    exists n cap', n <= length s /\ k (pos + n) (drop n s) cap' = Some res.
Proof.
  induction s as [|x s IH]; intros pos cap k res; simpl.
  - destruct (k pos [] cap) as [r|] eqn:E; [|done].
    intros [= ->]. exists 0, cap. split; [simpl; lia | by rewrite Nat.add_0_r].
  - destruct (k pos (x :: s) cap) as [r|] eqn:E.
    + intros [= ->]. exists 0, cap. split; [simpl; lia | by rewrite Nat.add_0_r].
    + destruct (RegExp.cset_match ic cs x); [|done].
      intros H. apply IH in H as (n & cap' & Hn & Hk).
      exists (S n), cap'. split; [simpl; lia|]. by rewrite Nat.add_succ_r.
Qed.

Lemma m_consumes {R} ic (r : RegExp.re) :
  forall pos s cap (k : RegExp.cont R) res,
    RegExp.m ic r pos s cap k = Some res ->
    exists n cap', n <= length s /\ k (pos + n) (drop n s) cap' = Some res.
Proof.
  induction r as [|cs|r1 IH1 r2 IH2|r1 IH1 r2 IH2|r1 IH1|cs|cs|r1 IH1|];
    intros pos s cap k res; simpl.
  - intros H. exists 0, cap. split; [simpl; lia | by rewrite Nat.add_0_r].
  - destruct s as [|x s]; [done|]. destruct (RegExp.cset_match ic cs x); [|done].
    intros H. exists 1, cap. split; [simpl; lia|]. by rewrite Nat.add_1_r.
  - intros H. apply IH1 in H as (n1 & cap1 & Hn1 & H).
    apply IH2 in H as (n2 & cap2 & Hn2 & H). rewrite length_drop in Hn2.
    exists (n1 + n2), cap2. split; [lia|].
    by rewrite Nat.add_assoc, <- drop_drop.
  - destruct (RegExp.m ic r1 pos s cap k) as [r|] eqn:E.
    + intros [= ->]. by apply IH1 in E.
    + apply IH2.
  - destruct (RegExp.m ic r1 pos s cap k) as [r|] eqn:E.
    + intros [= ->]. by apply IH1 in E.
    + intros H. exists 0, cap. split; [simpl; lia | by rewrite Nat.add_0_r].
  - apply star_greedy_consumes.
  - destruct s as [|x s]; [done|]. destruct (RegExp.cset_match ic cs x); [|done].
    intros H. apply star_lazy_consumes in H as (n & cap' & Hn & Hk).
    exists (S n), cap'. split; [simpl; lia|]. by rewrite Nat.add_succ_r.
  - intros H. apply IH1 in H as (n & _ & Hn & H). eauto.
  - destruct s; [|done]. intros H. exists 0, cap. split; [simpl; lia | by rewrite Nat.add_0_r].
Qed.

Lemma match_here_consumes ic r (s : list ascii) len rest cap :
  RegExp.match_here ic r s = Some (len, rest, cap) ->
  len <= length s /\ rest = drop len s.
Proof.
  unfold RegExp.match_here. intros H.
  apply m_consumes in H as (n & cap' & Hn & H). by injection H as <- <- _.
Qed.

Lemma search_here ic r (s : list ascii) found :
  RegExp.match_here ic r s = Some found -> RegExp.search ic r s = Some found.
Proof. intros H. destruct s; cbn [RegExp.search]; by rewrite H. Qed.

Lemma no_match_into_drop n (pre s : list ascii) :
  no_match_into pre s = true -> no_match_into (drop n pre) s = true.
Proof.
  revert pre. induction n as [|n IH]; intros [|c pre]; try done.
  cbn [no_match_into drop]. intros H. apply andb_true_iff in H as [_ H]. by apply IH.
Qed.

(** A text without [<] is no obstacle. *)
Lemma no_match_into_without_lt (pre s : list ascii) :
  "<"%char ∉ pre -> no_match_into pre s = true.
Proof.
  induction pre as [|c pre IH]; intros Hpre; [done|].
  apply not_elem_of_cons in Hpre as [Hc Hpre].
  cbn [no_match_into]. change ((c :: pre) ++ s) with (c :: pre ++ s).
  rewrite match_here_img_other by congruence. by apply IH.
Qed.

(** The scan of [matchAll] arrives at a match that no earlier match
    reaches into. *)
Lemma matchAll_go_reaches (s : list ascii) len rest cap :
  RegExp.match_here true img_re s = Some (S len, rest, cap) ->
  forall n pre fuel,
    length pre <= n -> length pre < fuel -> no_match_into pre s = true ->
    cap ∈ RegExp.matchAll_go fuel true img_re (pre ++ s).
Proof.
  intros Hs.
  assert (forall fuel, 0 < fuel -> cap ∈ RegExp.matchAll_go fuel true img_re s) as Hnil.
  { intros [|fuel] Hfuel; [lia|]. cbn [RegExp.matchAll_go].
    rewrite (search_here _ _ _ _ Hs). by left. }
  induction n as [|n IH]; intros [|c pre] fuel Hn Hfuel Hclear;
    try (by apply Hnil); [simpl in Hn; lia|].
  destruct fuel as [|fuel]; [lia|]. simpl in Hn, Hfuel.
  cbn [no_match_into] in Hclear. apply andb_true_iff in Hclear as [Hhere Hclear].
  destruct (RegExp.match_here true img_re ((c :: pre) ++ s))
    as [[[len1 rest1] cap1]|] eqn:E.
  - cbn [RegExp.matchAll_go]. rewrite (search_here _ _ _ _ E).
    apply match_here_consumes in E as [_ ->]. apply Nat.leb_le in Hhere.
    simpl in Hhere. right. destruct len1 as [|len1].
    + simpl. apply IH; [lia | lia | done].
    + change (drop (S len1) ((c :: pre) ++ s)) with (drop len1 (pre ++ s)).
      rewrite drop_app_le by lia.
      apply IH; [rewrite length_drop; lia | rewrite length_drop; lia |].
      by apply no_match_into_drop.
  - cbn [RegExp.matchAll_go]. change ((c :: pre) ++ s) with (c :: pre ++ s) in *.
    cbn [RegExp.search]. rewrite E.
    apply (IH pre (S fuel)); [lia | lia | done].
Qed.

Lemma length_list_ascii_of_string_app (s1 s2 : string) :
  length (list_ascii_of_string s1) <= String.length (s1 +:+ s2).
Proof. induction s1 as [|c s1 IH]; simpl; lia. Qed.

Lemma matchAll_photo (pre rest : string) :
  no_match_into (list_ascii_of_string pre)
    (list_ascii_of_string (img_tag "photo.png" +:+ rest)) = true ->
  Some (list_ascii_of_string "photo.png")
  ∈ RegExp.matchAll true img_re (pre +:+ img_tag "photo.png" +:+ rest).
Proof.
  intros Hclear. unfold RegExp.matchAll. rewrite (list_ascii_of_string_app pre).
  eapply (matchAll_go_reaches _ 20 (list_ascii_of_string rest));
    [| reflexivity | | done].
  - rewrite list_ascii_of_string_app. apply match_here_photo.
  - pose proof (length_list_ascii_of_string_app pre (img_tag "photo.png" +:+ rest)). lia.
Qed.

Lemma scrapePost_photo post pre rest images :
  peek (encoded post) = VString (pre +:+ img_tag "photo.png" +:+ rest) ->
  no_match_into (list_ascii_of_string pre)
    (list_ascii_of_string (img_tag "photo.png" +:+ rest)) = true ->
  peek (link post) = VString "https://example.com/post/" ->
  scrapePost post = Ok images ->
  {| i_id := VNumber (-1); i_postId := peek (post_id post);
     i_url := VString "https://example.com/post/photo.png" |} ∈ images.
Proof.
  intros Hbody Hclear Hlink H. unfold scrapePost in H. repeat inv_bind H.
  apply index0_peek in E, E0, E1. subst a a0 a1. rewrite Hbody, Hlink in H.
  apply mapM_Ok in H.
  pose proof (matchAll_photo pre rest Hclear) as Hm.
  apply list_elem_of_lookup in Hm as [i Hi].
  destruct (Forall2_lookup_l _ _ _ _ _ H Hi) as (img & Himg & Hres).
  vm_compute in Hres. injection Hres as <-.
  by eapply list_elem_of_lookup_2.
Qed.

(** C5, as the code has it.  For an item of a configured type whose
    link is [https://example.com/post/] and whose body contains
    [<img src="photo.png">], no match of the image pattern that starts
    before this tag extending into it, scraped-image discovery emits the
    image reference with the URL [https://example.com/post/photo.png],
    the [src] resolved against the link, which keeps the directory of
    the link, with the post's identifier and with the number -1 as
    [id]. *)
Theorem scraped_image_resolved_against_link data config images post pre rest :
  collectScrapedImages_array data config = Ok images ->
  post ∈ items_of data ->
  type_selected config post = true ->
  peek (encoded post) = VString (pre +:+ img_tag "photo.png" +:+ rest) ->
  no_match_into (list_ascii_of_string pre)
    (list_ascii_of_string (img_tag "photo.png" +:+ rest)) = true ->
  peek (link post) = VString "https://example.com/post/" ->
  {| i_id := VNumber (-1); i_postId := peek (post_id post);
     i_url := VString "https://example.com/post/photo.png" |} ∈ images.
Proof.
  intros H Hin Hsel Hbody Hclear Hlink. unfold collectScrapedImages_array in H.
  repeat inv_bind H. injection H as <-.
  apply getItemsOfTypes_Ok in E as [-> _]. apply mapM_Ok in E0.
  assert (post ∈ List.filter
            (fun it => includes_str (split "," (postTypes config)) (peek (post_type it)))
            (items_of data)) as Hpost
    by (apply list_elem_of_In, filter_In; split; [by apply list_elem_of_In | done]).
  apply list_elem_of_lookup in Hpost as [i Hi].
  destruct (Forall2_lookup_l _ _ _ _ _ E0 Hi) as (imgs & Himgs & Hscrape).
  apply (scrapePost_photo post pre rest) in Hscrape; [|done..].
  apply list_elem_of_In, in_concat. exists imgs. split.
  - apply list_elem_of_In. by eapply list_elem_of_lookup_2.
  - by apply list_elem_of_In.
Qed.

(** ** The publish date *)

Lemma check_from_spec check n z k :
  check_from check n z = true -> (z <= k < z + Z.of_nat n)%Z -> check k = true.
Proof.
  revert z. induction n as [|n IH]; simpl; intros z H Hk; [lia|].
  apply andb_true_iff in H as [Hz H].
  destruct (decide (k = z)) as [->|Hne]; [done|].
  apply (IH (z + 1)%Z); [done | lia].
Qed.

Lemma calendar_check_era : check_from calendar_check (Z.to_nat 146097) 0 = true.
Proof. vm_compute. reflexivity. Qed.

Lemma padStart_year_check :
  check_from (fun y => four_digits (Luxon.padStart y 4)) (Z.to_nat 10000) 0 = true.
Proof. vm_compute. reflexivity. Qed.

Lemma padStart_two_check :
  check_from (fun x => two_digits (Luxon.padStart x 2)) 31 1 = true.
Proof. vm_compute. reflexivity. Qed.

Lemma iso_date_shape_intro y m d :
  four_digits y = true -> two_digits m = true -> two_digits d = true ->
  iso_date_shape (y +:+ "-" +:+ m +:+ "-" +:+ d) = true.
Proof.
  unfold four_digits, two_digits, iso_date_shape.
  destruct y as [|y1 [|y2 [|y3 [|y4 [|]]]]]; try discriminate.
  destruct m as [|m1 [|m2 [|]]]; try discriminate.
  destruct d as [|d1 [|d2 [|]]]; try discriminate.
  simpl. unfold digit. intros Hy Hm Hd.
  repeat match goal with
         | H : _ && _ = true |- _ => apply andb_true_iff in H as [? ?]
         end.
  repeat match goal with H : Luxon.is_digit _ = true |- _ => rewrite H; clear H end.
  done.
Qed.

(** In the years 0 to 9999 the ISO date has the form [YYYY-MM-DD]. *)
Lemma toISODate_shape ts :
  (0 <= utc_year ts <= 9999)%Z ->
  exists s, Luxon.toISODate (Luxon.Valid ts) = VString s /\ iso_date_shape s = true.
Proof.
  unfold utc_year, Luxon.toISODate, Luxon.civil_from_days.
  generalize (ts / 86400 + 719468)%Z. intros z.
  assert (0 <= z - z / 146097 * 146097 < 146097)%Z as Hdoe
    by (pose proof (Z.mod_pos_bound z 146097); pose proof (Z.mod_eq z 146097); lia).
  pose proof (check_from_spec _ _ _ _ calendar_check_era
                (ltac:(lia) : (0 <= z - z / 146097 * 146097 < 0 + Z.of_nat (Z.to_nat 146097))%Z))
    as Hcal.
  unfold calendar_check in Hcal.
  destruct (Luxon.civil_of_doe (z - z / 146097 * 146097)) as [[y0 m0] d0].
  simpl. intros Hy.
  assert (1 <= m0 <= 12 /\ 1 <= d0 <= 31)%Z as [Hm Hd] by lia.
  replace ((9999 <? y0 + z / 146097 * 400) || (y0 + z / 146097 * 400 <? 0))%Z
    with false by lia.
  simpl. eexists. split; [reflexivity|].
  apply iso_date_shape_intro.
  - apply (check_from_spec _ _ _ _ padStart_year_check). lia.
  - apply (check_from_spec _ _ _ _ padStart_two_check). lia.
  - apply (check_from_spec _ _ _ _ padStart_two_check). lia.
Qed.

(** C7. The [frontmatter.date] of an extracted item is its [pubDate]
    read as an RFC-2822 timestamp and written as the ISO calendar date,
    in UTC, of that point in time, of the form [YYYY-MM-DD] in the years
    0 to 9999; the publish date [Wed, 01 Jan 2020 00:00:00 +0000] gives
    [2020-01-01]. *)
Theorem frontmatter_date_is_utc_iso_date config post p :
  extractPost getPostContent config post = Ok p ->
  exists text dt,
    index0 (pubDate post) = Ok text
    /\ Luxon.fromRFC2822 text = Ok dt
    /\ f_date (frontmatter p) = Luxon.toISODate dt
    /\ (forall ts, dt = Luxon.Valid ts -> (0 <= utc_year ts <= 9999)%Z ->
                   exists s, f_date (frontmatter p) = VString s
                             /\ iso_date_shape s = true)
    /\ (text = VString "Wed, 01 Jan 2020 00:00:00 +0000" ->
        f_date (frontmatter p) = VString "2020-01-01").
Proof.
  intros H. apply extractPost_date in H. unfold getPostDate in H.
  destruct (index0 (pubDate post)) as [text|] eqn:Ht; [|discriminate]. simpl in H.
  destruct (Luxon.fromRFC2822 text) as [dt|] eqn:Hdt; [|discriminate]. simpl in H.
  injection H as H. exists text, dt. repeat split; try done.
  - intros ts -> Hy. rewrite <- H. by apply toISODate_shape.
  - intros ->. vm_compute in Hdt. injection Hdt as <-. by rewrite <- H.
Qed.

(** ** Attached images and the cover image *)

Lemma mapM_Ok_map {A B} (f : A -> Result B) (g : A -> B) (l : list A) (r : list B) :
  (forall x y, f x = Ok y -> y = g x) -> mapM_ f l = Ok r -> r = map g l.
Proof.
  intros Hg H. apply mapM_Ok in H.
  induction H as [|x y ? ? Hxy _ IH]; simpl; [done|].
  by rewrite (Hg x y Hxy), IH.
Qed.

(** Attached-image discovery: the attachments whose URL ends in an image
    extension, in the order of the document. *)
Lemma collectAttachedImages_array_Ok data attached :
  collectAttachedImages_array data = Ok attached ->
  attached =
  map (fun a => {| i_id := peek (post_id a); i_postId := peek (post_parent a);
                   i_url := peek (attachment_url a) |})
      (List.filter
         (fun a => RegExp.test true attachment_re (toString (peek (attachment_url a))))
         (List.filter (fun it => includes_str ["attachment"] (peek (post_type it)))
                      (items_of data))).
Proof.
  unfold collectAttachedImages_array. intros H. repeat inv_bind H.
  apply getItemsOfTypes_Ok in E as [-> _].
  apply (filterM_Ok _ (fun a => RegExp.test true attachment_re
                                  (toString (peek (attachment_url a))))) in E0 as [-> _].
  - eapply mapM_Ok_map; [|exact H].
    intros a img Ha. unfold attachedImage in Ha. repeat inv_bind Ha.
    apply index0_peek in E, E0, E1. congruence.
  - intros a b _ Hb. unfold isImageAttachment in Hb. inv_bind Hb.
    apply index0_peek in E. congruence.
Qed.

Lemma search_suffix ic r (s1 s2 : list ascii) :
  RegExp.match_here ic r s2 <> None -> RegExp.search ic r (s1 ++ s2) <> None.
Proof.
  intros Hm. induction s1 as [|c s1 IH]; simpl.
  - destruct s2; simpl; destruct (RegExp.match_here _ _ _); done.
  - by destruct (RegExp.match_here ic r (c :: s1 ++ s2)).
Qed.

(** The attachment pattern accepts a URL that ends in [.jpg]. *)
Lemma test_jpg (stem : string) :
  RegExp.test true attachment_re (stem +:+ ".jpg") = true.
Proof.
  unfold RegExp.test. rewrite list_ascii_of_string_app.
  pose proof (search_suffix true attachment_re (list_ascii_of_string stem)
                (list_ascii_of_string ".jpg") ltac:(by vm_compute)) as H.
  by destruct (RegExp.search _ _ _).
Qed.

Lemma findM_thumbnail_Ok metas found :
  findM (fun pm => k <- index0 (meta_key pm) ;;
                   Ok (strict_eq k (VString "_thumbnail_id"))) metas = Ok found ->
  found = first_thumbnail metas.
Proof.
  unfold first_thumbnail.
  induction metas as [|pm metas IH]; simpl; [congruence|].
  destruct (meta_key pm) as [[|k ?]|]; simpl; [apply IH | | done].
  destruct (strict_eq (VString k) (VString "_thumbnail_id")); [congruence | apply IH].
Qed.

(** An assignment to another key leaves the post that a key gives. *)
Lemma lookup_get_set_other store lk key key' i j :
  key <> key' ->
  lookup_get store lk key = RPost i ->
  lookup_get store (lookup_set lk key' j) key = RPost i.
Proof.
  intros Hne. unfold lookup_get, lookup_set.
  case_bool_decide as Hk.
  - subst key. rewrite bool_decide_eq_false_2 by congruence. done.
  - destruct (own lk !! key) as [i0|] eqn:Hown.
    + intros [= ->]. case_bool_decide; simpl; [by rewrite Hown|].
      by rewrite lookup_insert_ne, Hown by congruence.
    + destruct (proto lk); repeat case_match; done.
Qed.

(** The lookup gives, for the key of a post, the last post with this key. *)
Lemma lookup_get_at store posts :
  forall i p,
    posts !! i = Some p ->
    (forall j q, i < j -> posts !! j = Some q -> post_key q <> post_key p) ->
    lookup_get store (build_lookup posts) (post_key p) = RPost i.
Proof.
  induction posts as [|x posts IH] using rev_ind; intros i p Hp Hlast; [done|].
  rewrite build_lookup_snoc.
  destruct (decide (i < length posts)) as [Hlt|Hge].
  - rewrite lookup_app_l in Hp by done.
    apply lookup_get_set_other.
    + intros Heq. apply (Hlast (length posts) x Hlt); [|by symmetry].
      by rewrite lookup_app_r, Nat.sub_diag by lia.
    + apply IH; [done|]. intros j q Hj Hq. apply (Hlast j q Hj).
      rewrite lookup_app_l; [done | by eapply lookup_lt_Some].
  - assert (i = length posts) as ->.
    { apply lookup_lt_Some in Hp. rewrite length_app in Hp. simpl in Hp. lia. }
    rewrite lookup_app_r, Nat.sub_diag in Hp by lia. injection Hp as ->.
    apply lookup_get_set.
Qed.

Lemma last_unique {A} (l : list A) (x : A) :
  x ∈ l -> (forall y, y ∈ l -> y = x) -> last l = Some x.
Proof.
  induction l as [|a l IH]; intros Hx Hall; [by apply elem_of_nil in Hx|].
  destruct l as [|b l].
  - simpl. f_equal. apply Hall. by left.
  - change (last (a :: b :: l)) with (last (b :: l)). apply IH.
    + rewrite <- (Hall b) by (right; by left). by left.
    + intros y Hy. apply Hall. by right.
Qed.

(** C4. During the merge the [frontmatter.coverImage] of a post is the
    file name derived from the URL of the last image, in the order of
    the image sequence, that belongs to the post and whose [id] is the
    post's [meta.coverImageId], and stays as it was when there is no
    such image.  In particular, with attached images switched on, a
    collected post whose first postmeta entry with the key
    [_thumbnail_id] has the value [42], no later collected item having
    its [post_id], and the only attachment of [post_id] 42, when this
    attachment is attached to the post (its [post_parent] is the post's
    [post_id]) and has an [attachment_url] that ends in [.jpg], give the
    post the last path segment of that URL, decoded, as its cover
    image. *)
Theorem coverImage_from_last_cover_image :
  (forall images posts posts' i p p',
      mergeImagesIntoPosts decode images posts = Ok posts' ->
      posts !! i = Some p ->
      posts' !! i = Some p' ->
      match last (List.filter
                    (fun image => owned_by posts i image && is_cover_of p image)
                    images) with
      | Some image =>
          getFilenameFromUrl decode (i_url image) = Ok (f_coverImage (frontmatter p'))
      | None => f_coverImage (frontmatter p') = f_coverImage (frontmatter p)
      end)
  /\ (forall data config out posts' out' i post p' attachment pid stem metas pm,
         saveAttachedImages config = true ->
         parseFilePromise getPostContent decode data config out = (Ok posts', out') ->
         List.filter (selected config) (items_of data) !! i = Some post ->
         posts' !! i = Some p' ->
         peek (post_id post) = VString pid ->
         (forall j q, i < j ->
                      List.filter (selected config) (items_of data) !! j = Some q ->
                      toPropertyKey (peek (post_id q)) <> pid) ->
         postmeta post = Some metas ->
         first_thumbnail metas = Some pm ->
         peek (meta_value pm) = VString "42" ->
         attachment ∈ items_of data ->
         peek (post_type attachment) = VString "attachment" ->
         peek (post_id attachment) = VString "42" ->
         peek (post_parent attachment) = VString pid ->
         peek (attachment_url attachment) = VString (stem +:+ ".jpg") ->
         (forall a, a ∈ items_of data ->
                    peek (post_type a) = VString "attachment" ->
                    peek (post_id a) = VString "42" -> a = attachment) ->
         f_coverImage (frontmatter p') =
         VString (decode (lastPathSegment (stem +:+ ".jpg")))).
Proof.
  split; [apply mergeImagesIntoPosts_coverImage|].
  intros data config out posts' out' i post p' attachment pid stem metas pm
    Hon Hrun Hi Hi' Hpid Hlast Hmeta Hfirst Hval Hatt Hatype Haid Hapar Haurl Huniq.
  apply parseFilePromise_Ok in Hrun as (posts & att & scr & Hp & Ha & Hs & Hm).
  (* the record of the post *)
  apply collectPosts_array_Ok in Hp.
  destruct (Forall2_lookup_l _ _ _ _ _ Hp Hi) as (p & Hpi & Hext).
  pose proof (extractPost_id _ _ _ Hext) as Hid. rewrite Hpid in Hid.
  assert (m_coverImageId (meta p) = VString "42") as Hcov.
  { pose proof (extractPost_coverImageId _ _ _ Hext) as Hc.
    unfold getPostCoverImageId in Hc. rewrite Hmeta in Hc. inv_bind Hc.
    apply findM_thumbnail_Ok in E. rewrite Hfirst in E. subst a.
    apply index0_peek in Hc. congruence. }
  (* the image of the attachment *)
  set (image_of := fun a => {| i_id := peek (post_id a); i_postId := peek (post_parent a);
                               i_url := peek (attachment_url a) |}).
  rewrite Hon in Ha. apply collectAttachedImages_array_Ok in Ha. fold image_of in Ha.
  assert (Forall (fun image => i_id image = VNumber (-1)) scr) as Hscr.
  { destruct (saveScrapedImages config); [|by subst].
    by eapply collectScrapedImages_sentinel. }
  (* the merge *)
  pose proof (mergeImagesIntoPosts_coverImage _ _ _ _ _ _ Hm Hpi Hi') as Hc.
  rewrite List.filter_app in Hc.
  rewrite (filter_nil_Forall _ scr), app_nil_r in Hc.
  2:{ eapply Forall_impl; [exact Hscr|]. intros image Himg. simpl.
      rewrite (sentinel_is_no_cover p image); [apply andb_false_r | done |].
      right. by eexists. }
  rewrite (last_unique _ (image_of attachment)) in Hc.
  - simpl in Hc. rewrite Haurl in Hc. simpl in Hc. by injection Hc as <-.
  - apply list_elem_of_In, filter_In. split.
    + rewrite Ha. apply in_map, filter_In. split.
      * apply filter_In. split; [by apply list_elem_of_In|].
        rewrite Hatype. by vm_compute.
      * rewrite Haurl. apply test_jpg.
    + apply andb_true_iff. split.
      * unfold owned_by, owner. apply bool_decide_eq_true.
        replace (toPropertyKey (i_postId (image_of attachment))) with (post_key p)
          by (unfold post_key; simpl; by rewrite Hid, Hapar).
        rewrite (lookup_get_at posts posts i p); [done | done |].
        intros j q' Hj Hq'.
        destruct (Forall2_lookup_r _ _ _ _ _ Hp Hq') as (q & Hq & Hextq).
        unfold post_key. rewrite (extractPost_id _ _ _ Hextq), Hid. simpl.
        by apply (Hlast j q).
      * unfold is_cover_of. simpl. rewrite Haid, Hcov. by apply bool_decide_eq_true.
  - intros image Himage. apply list_elem_of_In, filter_In in Himage as [Himage Hkeep].
    apply andb_true_iff in Hkeep as [_ Hkeep].
    unfold is_cover_of in Hkeep. apply bool_decide_eq_true in Hkeep.
    rewrite Ha in Himage. apply in_map_iff in Himage as (a & <- & Hin).
    apply filter_In in Hin as [Hin _]. apply filter_In in Hin as [Hin Htype].
    f_equal. apply Huniq.
    + by apply list_elem_of_In.
    + destruct (peek (post_type a)) as [| |t|]; try done. simpl in Htype.
      apply bool_decide_eq_true, list_elem_of_singleton in Htype. by subst.
    + simpl in Hkeep. congruence.
Qed.

End Properties.

(** ** The properties on the example documents *)

Lemma collectPosts_one_record_per_selected_item_witness :
  Forall2 (fun it p => extractPost plain_content config_default it = Ok p)
          (List.filter (selected config_default) (items_of example_document)) example_posts
  /\ length example_posts =
     length (List.filter (selected config_default) (items_of example_document)).
Proof.
  apply (collectPosts_one_record_per_selected_item plain_content example_document
           config_default [] example_posts ["4 posts found."]).
  vm_compute. reflexivity.
Defined.

Lemma imageUrls_unique_in_first_occurrence_order_witness :
  exists posts attached scraped,
    collectPosts_array plain_content example_document config_default = Ok posts
    /\ (if saveAttachedImages config_default
        then collectAttachedImages_array example_document = Ok attached else attached = [])
    /\ (if saveScrapedImages config_default
        then collectScrapedImages_array example_document config_default = Ok scraped
        else scraped = [])
    /\ length example_result = length posts
    /\ forall i p', example_result !! i = Some p' ->
         NoDup (m_imageUrls (meta p'))
         /\ m_imageUrls (meta p') =
            first_occurrences
              (map i_url (List.filter (owned_by posts i) (attached ++ scraped))).
Proof.
  apply (imageUrls_unique_in_first_occurrence_order plain_content no_decode
           example_document config_default [] example_result example_console).
  vm_compute. reflexivity.
Defined.

Lemma coverImage_from_last_cover_image_witness :
  exists p',
    example_result !! 3 = Some p'
    /\ f_coverImage (frontmatter p') =
       VString (no_decode (lastPathSegment
                             ("https://example.com/wp-content/uploads/2020/01/cover"
                              +:+ ".jpg"))).
Proof.
  eexists. split; [reflexivity|].
  apply (proj2 (coverImage_from_last_cover_image plain_content no_decode)
           example_document config_default [] example_result example_console
           3 post_with_thumbnail _ attachment_42 "5"
           "https://example.com/wp-content/uploads/2020/01/cover"
           [ {| meta_key := txt "_edit_last"; meta_value := txt "1" |}; thumbnail "42" ]
           (thumbnail "42"));
    try (vm_compute; reflexivity).
  - intros j q Hj Hq. do 4 (destruct j as [|j]; [lia|]). vm_compute in Hq. discriminate.
  - apply list_elem_of_In. vm_compute. tauto.
  - intros a Ha Htype Hid. apply list_elem_of_In in Ha.
    repeat (destruct Ha as [<-|Ha];
            [first [ reflexivity | vm_compute in Htype; discriminate
                   | vm_compute in Hid; discriminate ]|]).
    destruct Ha.
Defined.

(** C4, as the spec has it, fails.  On a post with the postmeta entry
    [_thumbnail_id] = [42] and an attachment of [post_id] 42 whose
    [attachment_url] ends in [.jpg], the post has no cover image when the
    attachment is attached to no post; nor has it one when attached
    images are switched off, when a later post has its identifier, or
    when an earlier [_thumbnail_id] entry has another value; and with a
    later attachment of the same [post_id] the cover image is the file
    of that one. *)
Lemma unattached_cover_image_is_ignored :
  (postmeta post_cover = Some [thumbnail "42"]
   /\ peek (post_type attachment_unattached) = VString "attachment"
   /\ peek (post_id attachment_unattached) = VString "42"
   /\ peek (attachment_url attachment_unattached)
      = VString "https://example.com/wp-content/uploads/2020/01/cover.jpg"
   /\ cover_images (document [post_cover; attachment_unattached]) config_default
      = Ok [VUndefined]
   /\ ~ (exists p',
           (parseFilePromise plain_content no_decode
              (document [post_cover; attachment_unattached]) config_default []).1
           = Ok [p']
           /\ f_coverImage (frontmatter p') = VString "cover.jpg"))
  /\ cover_images (document [post_cover; attachment_42]) config_scraped_only
     = Ok [VUndefined]
  /\ cover_images (document [post_cover; post_same_id; attachment_42]) config_default
     = Ok [VUndefined; VUndefined]
  /\ cover_images (document [post_two_cover_ids; attachment_42]) config_default
     = Ok [VUndefined]
  /\ cover_images (document [post_cover; attachment_42; attachment_42_later])
       config_default
     = Ok [VString "later.jpg"].
Proof.
  split; [|repeat split; vm_compute; reflexivity].
  do 5 (split; [vm_compute; reflexivity|]).
  intros (p' & Hrun & Hcover).
  assert (cover_images (document [post_cover; attachment_unattached]) config_default
          = Ok [VUndefined]) as H by (vm_compute; reflexivity).
  unfold cover_images in H. rewrite Hrun in H. simpl in H. congruence.
Qed.

Lemma scraped_image_resolved_against_link_witness :
  {| i_id := VNumber (-1); i_postId := peek (post_id post_two_images);
     i_url := VString "https://example.com/post/photo.png" |}
  ∈ example_scraped_two_images.
Proof.
  apply (scraped_image_resolved_against_link (document [post_two_images]) config_default
           example_scraped_two_images post_two_images
           ("<p>" +:+ img_tag "first.gif" +:+ " and ") "</p>");
    try (vm_compute; reflexivity).
  apply list_elem_of_In. vm_compute. auto.
Defined.

(** C5, as the spec has it, fails: on the item of the scenario no scraped
    image has the URL [https://example.com/photo.png]; the only one has
    [https://example.com/post/photo.png].  And a body that contains the
    tag gives no image for it when an earlier match of the pattern
    extends into the tag: after an image tag that is left open the only
    image is the one of that earlier match. *)
Lemma scraped_url_keeps_the_directory_of_the_link :
  (collectScrapedImages_array (document [post_hello]) config_default
   = Ok [ {| i_id := VNumber (-1); i_postId := VString "1";
             i_url := VString "https://example.com/post/photo.png" |} ]
   /\ ~ (exists images image,
           collectScrapedImages_array (document [post_hello]) config_default = Ok images
           /\ image ∈ images
           /\ i_url image = VString "https://example.com/photo.png"
           /\ i_id image = VNumber (-1)))
  /\ (peek (encoded post_swallowed) = VString (open_img +:+ img_tag "photo.png" +:+ "")
      /\ peek (link post_swallowed) = VString "https://example.com/post/"
      /\ no_match_into (list_ascii_of_string open_img)
           (list_ascii_of_string (img_tag "photo.png" +:+ "")) = false
      /\ collectScrapedImages_array (document [post_swallowed]) config_default
         = Ok [ {| i_id := VNumber (-1); i_postId := VString "1";
                   i_url := VString
                     "https://example.com/post/x%3Ey%20%3Cimg%20src=%22photo.png" |} ]
      /\ ~ (exists images image,
              collectScrapedImages_array (document [post_swallowed]) config_default
              = Ok images
              /\ image ∈ images
              /\ (i_url image = VString "https://example.com/post/photo.png"
                  \/ i_url image = VString "https://example.com/photo.png"))).
Proof.
  assert (collectScrapedImages_array (document [post_hello]) config_default
          = Ok [ {| i_id := VNumber (-1); i_postId := VString "1";
                    i_url := VString "https://example.com/post/photo.png" |} ]) as H
    by (vm_compute; reflexivity).
  assert (collectScrapedImages_array (document [post_swallowed]) config_default
          = Ok [ {| i_id := VNumber (-1); i_postId := VString "1";
                    i_url := VString
                      "https://example.com/post/x%3Ey%20%3Cimg%20src=%22photo.png" |} ])
    as H' by (vm_compute; reflexivity).
  split.
  - split; [exact H|].
    intros (images & image & Himages & Hin & Hurl & _).
    rewrite H in Himages. injection Himages as <-.
    apply list_elem_of_singleton in Hin as ->. discriminate.
  - do 3 (split; [vm_compute; reflexivity|]). split; [exact H'|].
    intros (images & image & Himages & Hin & Hurl).
    rewrite H' in Himages. injection Himages as <-.
    apply list_elem_of_singleton in Hin as ->. by destruct Hurl.
Qed.

Lemma frontmatter_date_is_utc_iso_date_witness :
  exists text dt,
    index0 (pubDate post_hello) = Ok text
    /\ Luxon.fromRFC2822 text = Ok dt
    /\ f_date (frontmatter example_post_hello) = Luxon.toISODate dt
    /\ (forall ts, dt = Luxon.Valid ts -> (0 <= utc_year ts <= 9999)%Z ->
                   exists s, f_date (frontmatter example_post_hello) = VString s
                             /\ iso_date_shape s = true)
    /\ (text = VString "Wed, 01 Jan 2020 00:00:00 +0000" ->
        f_date (frontmatter example_post_hello) = VString "2020-01-01").
Proof.
  apply (frontmatter_date_is_utc_iso_date plain_content config_default post_hello).
  vm_compute. reflexivity.
Defined.

Lemma mergeImagesIntoPosts_frame_witness :
  length example_result = length example_posts
  /\ Forall2 same_but_images example_posts example_result.
Proof.
  apply (mergeImagesIntoPosts_frame no_decode example_images).
  vm_compute. reflexivity.
Defined.

Lemma scraped_images_never_set_coverImage_witness :
  Forall (fun p' => f_coverImage (frontmatter p') = VUndefined) example_scraped_only.
Proof.
  apply Forall_forall. intros p'.
  apply (proj2 (scraped_images_never_set_coverImage plain_content no_decode
                  example_document config_scraped_only)
           eq_refl [] example_scraped_only example_scraped_only_console).
  vm_compute. reflexivity.
Defined.

(** * Further properties of the code *)

Section Further.

Variable getPostContent : RawItem -> Config -> Result value.
Variable decode : string -> string.

(** ** Reading an item *)

Lemma findM_thumbnail metas :
  Forall (fun pm => meta_key pm <> None) metas ->
  findM (fun pm => k <- index0 (meta_key pm) ;;
                   Ok (strict_eq k (VString "_thumbnail_id"))) metas
  = Ok (first_thumbnail metas).
Proof.
  induction 1 as [|pm metas Hpm _ IH]; simpl; [done|].
  destruct (meta_key pm) as [[|k ?]|]; [| |done]; simpl.
  - apply IH.
  - destruct (strict_eq (VString k) (VString "_thumbnail_id")); [done | apply IH].
Qed.

(** X1. When every postmeta entry has a key, the cover image id of an
    item is the first value of the first entry whose key is
    [_thumbnail_id], later such entries being ignored, and [undefined]
    when there is none; reading that value throws when the entry has no
    [meta_value]. *)
Theorem getPostCoverImageId_first_thumbnail post metas :
  postmeta post = Some metas ->
  Forall (fun pm => meta_key pm <> None) metas ->
  getPostCoverImageId post =
  match first_thumbnail metas with
  | Some pm => index0 (meta_value pm)
  | None => Ok VUndefined
  end.
Proof.
  intros Hmeta Hkeys. unfold getPostCoverImageId. rewrite Hmeta.
  by rewrite findM_thumbnail.
Qed.

Lemma filterM_domain_closed d cats :
  filterM (domain_is d) cats =
  if forallb has_attributes cats
  then Ok (List.filter (fun c => match c with
                                 | CatElem dom _ => bool_decide (dom = Some d)
                                 | CatText _ => false
                                 end) cats)
  else Throw TypeError.
Proof.
  induction cats as [|c cats IH]; simpl; [done|].
  destruct c as [t|dom t]; simpl; [done|].
  rewrite IH. destruct (forallb has_attributes cats); simpl; [|done].
  by destruct (bool_decide (dom = Some d)).
Qed.

(** X2. [getCategories] gives the empty list for an item without category
    entries, throws a TypeError as soon as one entry has no attributes,
    and otherwise gives the texts of the entries of domain [category], in
    their order. *)
Theorem getCategories_closed_form post :
  getCategories post =
  match category post with
  | None => Ok []
  | Some cats =>
      if forallb has_attributes cats
      then Ok (entries_of_domain "category" post)
      else Throw TypeError
  end.
Proof.
  unfold getCategories, entries_of_domain. destruct (category post) as [cats|]; [|done].
  rewrite filterM_domain_closed. by destruct (forallb has_attributes cats).
Qed.

(** X3. [getTags] gives the empty list for every item without a [tags]
    element; with one it throws a TypeError when the item has no category
    entries or one without attributes, and otherwise gives the texts of
    the category entries of domain [post_tag]. *)
Theorem getTags_closed_form post :
  getTags post =
  match tags post, category post with
  | None, _ => Ok []
  | Some _, None => Throw TypeError
  | Some _, Some cats =>
      if forallb has_attributes cats
      then Ok (entries_of_domain "post_tag" post)
      else Throw TypeError
  end.
Proof.
  unfold getTags, entries_of_domain.
  destruct (tags post); [|done]. destruct (category post) as [cats|]; [|done].
  rewrite filterM_domain_closed. by destruct (forallb has_attributes cats).
Qed.

Lemma extractPost_required config it p :
  extractPost getPostContent config it = Ok p ->
  Forall (fun f => f <> None) (required_fields it).
Proof.
  unfold extractPost, getPostId, getPostSlug, getPostType, getPostTitle, getPostDate,
    getLink, getCreator, getDescription, getCommentStatus, getPingStatus, isSticky.
  intros H. repeat inv_bind H.
  repeat match goal with
         | E : bind (index0 _) _ = Ok _ |- _ => apply bind_Ok in E as (? & ? & _)
         end.
  repeat match goal with
         | E : index0 ?f = Ok _ |- _ =>
             assert (f <> None) by (intros Hf; rewrite Hf in E; discriminate); clear E
         end.
  unfold required_fields. repeat constructor; done.
Qed.

(** X4. One selected item that lacks one of the tags read by the
    extraction (identifier, name, type, title, publish date, link,
    creator, description, comment status, ping status, sticky flag) makes
    [collectPosts] fail as a whole: no post is returned, not even those of
    the other items. *)
Theorem collectPosts_fails_on_missing_field data config out it :
  it ∈ items_of data ->
  selected config it = true ->
  None ∈ required_fields it ->
  forall posts out', collectPosts getPostContent data config out <> (Ok posts, out').
Proof.
  intros Hin Hsel Hnone posts out' H.
  rewrite collectPosts_console in H.
  destruct (collectPosts_array getPostContent data config) as [ps|] eqn:E; [|discriminate].
  apply collectPosts_array_Ok in E.
  assert (it ∈ List.filter (selected config) (items_of data)) as Hit
    by (apply list_elem_of_In, filter_In; split; [by apply list_elem_of_In | done]).
  apply list_elem_of_lookup in Hit as [i Hi].
  destruct (Forall2_lookup_l _ _ _ _ _ E Hi) as (p & _ & Hp).
  apply extractPost_required in Hp. rewrite Forall_forall in Hp.
  by apply (Hp None).
Qed.

(** X5. On a document none of whose items has a [tags] element, as
    WordPress writes them, every post of the result has an empty
    [frontmatter.tags], whatever its category entries are. *)
Theorem tags_empty_without_tags_elements data config out posts' out' :
  Forall (fun it => tags it = None) (items_of data) ->
  parseFilePromise getPostContent decode data config out = (Ok posts', out') ->
  Forall (fun p => f_tags (frontmatter p) = []) posts'.
Proof.
  intros Hnone H.
  apply parseFilePromise_Ok in H as (posts & att & scr & Hp & _ & _ & Hm).
  apply mergeImagesIntoPosts_Ok in Hm as ->.
  apply collectPosts_array_Ok in Hp.
  apply Forall_forall. intros p' Hp'.
  apply list_elem_of_lookup in Hp' as [i Hi]. rewrite list_lookup_imap in Hi.
  destruct (posts !! i) as [p|] eqn:Hpi; [|discriminate]. injection Hi as <-.
  pose proof (merged_posts_same decode
                (List.filter (owned_by posts i) (att ++ scr)) p) as Hsame.
  unfold same_but_images in Hsame.
  repeat match goal with H : _ /\ _ |- _ => destruct H end.
  match goal with H : f_tags _ = f_tags _ |- _ => rewrite H end.
  destruct (Forall2_lookup_r _ _ _ _ _ Hp Hpi) as (it & Hit & Hext).
  apply extractPost_tags in Hext. unfold getTags in Hext.
  rewrite Forall_forall in Hnone.
  rewrite (Hnone it) in Hext.
  - by injection Hext as <-.
  - apply list_elem_of_In. apply list_elem_of_lookup_2 in Hit.
    by apply list_elem_of_In, filter_In in Hit as [? _].
Qed.

(** ** The document *)

(** X6. On a document without the path [rss.channel[0].item], as for an
    export without any item, the pipeline throws a TypeError at the first
    access, having written only its first line. *)
Theorem parseFilePromise_without_items data config out :
  (forall items, channel_items data <> Ok items) ->
  parseFilePromise getPostContent decode data config out =
  (Throw TypeError, out ++ [String "010" "Parsing..."]).
Proof.
  intros Hno.
  assert (channel_items data = Throw TypeError) as Hch.
  { unfold channel_items in *.
    destruct (rss data) as [r|]; [|done].
    destruct (channel r) as [[|c ?]|]; [done| |done].
    destruct (item c) as [items|]; [|done]. by destruct (Hno items). }
  unfold parseFilePromise, collectPosts, collectPosts_array, getItemsOfTypes,
    bindM, liftM, console_log.
  by rewrite Hch.
Qed.

(** ** The configured types *)

Lemma string_app_nil_r (s : string) : s +:+ "" = s.
Proof.
  induction s as [|c s IH]; [done|].
  change (String c (s +:+ "") = String c s). by rewrite IH.
Qed.

Lemma string_app_assoc (s1 s2 s3 : string) : (s1 +:+ s2) +:+ s3 = s1 +:+ (s2 +:+ s3).
Proof.
  induction s1 as [|c s1 IH]; [done|].
  change (String c ((s1 +:+ s2) +:+ s3) = String c (s1 +:+ (s2 +:+ s3))). by rewrite IH.
Qed.

Lemma split_go_cons sep cur s : exists x xs, split_go sep cur s = x :: xs.
Proof.
  revert cur. induction s as [|c s IH]; intros cur; simpl; [eauto|].
  case_bool_decide; eauto.
Qed.

Lemma concat_split_go sep cur s :
  String.concat (String sep "") (split_go sep cur s) = cur +:+ s.
Proof.
  revert cur. induction s as [|c s IH]; intros cur; simpl.
  - by rewrite string_app_nil_r.
  - case_bool_decide as Hc.
    + subst c. specialize (IH "").
      destruct (split_go_cons sep "" s) as (x & xs & E). rewrite E in *.
      change (String.concat (String sep "") (cur :: x :: xs))
        with (cur +:+ (String sep "" +:+ String.concat (String sep "") (x :: xs))).
      by rewrite IH.
    + rewrite IH. by rewrite string_app_assoc.
Qed.

Lemma split_go_parts sep cur s :
  sep ∉ list_ascii_of_string cur ->
  Forall (fun part => sep ∉ list_ascii_of_string part) (split_go sep cur s).
Proof.
  revert cur. induction s as [|c s IH]; intros cur Hcur; simpl.
  - by constructor.
  - case_bool_decide as Hc.
    + constructor; [done|]. apply IH. simpl. apply not_elem_of_nil.
    + apply IH. rewrite list_ascii_of_string_app. simpl.
      rewrite elem_of_app, list_elem_of_singleton. intros [?|?]; [done | by subst].
Qed.

(** X7. The configured types are the parts of [postTypes] between its
    commas: joined with commas they give [postTypes] back, none of them
    holds a comma, and there is always at least one, the empty string for
    an empty [postTypes]. *)
Theorem split_postTypes_round_trip (config : Config) :
  String.concat "," (split "," (postTypes config)) = postTypes config
  /\ Forall (fun t => ","%char ∉ list_ascii_of_string t) (split "," (postTypes config))
  /\ split "," (postTypes config) <> []
  /\ (postTypes config = "" -> split "," (postTypes config) = [""]).
Proof.
  unfold split. repeat split.
  - apply concat_split_go.
  - apply split_go_parts. simpl. apply not_elem_of_nil.
  - by destruct (split_go_cons "," "" (postTypes config)) as (x & xs & ->).
  - by intros ->.
Qed.

(** ** The two patterns *)

Lemma search_Some_inv ic r s x :
  RegExp.search ic r s = Some x ->
  exists s1 s2, s = s1 ++ s2 /\ RegExp.match_here ic r s2 = Some x.
Proof.
  induction s as [|c s IH]; simpl.
  - destruct (RegExp.match_here ic r []) eqn:E; [|done].
    intros [= <-]. by exists [], [].
  - destruct (RegExp.match_here ic r (c :: s)) eqn:E.
    + intros [= <-]. by exists [], (c :: s).
    + intros H. destruct (IH H) as (s1 & s2 & -> & Hm). by exists (c :: s1), s2.
Qed.

Lemma match_here_attachment_inv s x :
  RegExp.match_here true attachment_re s = Some x ->
  map RegExp.canon s ∈ image_extensions.
Proof.
  unfold RegExp.match_here, attachment_re, RegExp.image_ext.
  destruct s as [|c1 [|c2 [|c3 [|c4 [|c5 [|c6 s]]]]]]; simpl; try discriminate.
  all: repeat (case_bool_decide; simpl; try discriminate).
  all: intros _.
  all: repeat match goal with H : RegExp.canon _ = _ |- _ => rewrite H; clear H end.
  all: apply list_elem_of_In; vm_compute; tauto.
Qed.

Lemma match_here_attachment ext :
  map RegExp.canon ext ∈ image_extensions ->
  RegExp.match_here true attachment_re ext <> None.
Proof.
  intros H. apply list_elem_of_In in H. simpl in H.
  destruct H as [H|[H|[H|[H|[]]]]];
    (destruct ext as [|c1 [|c2 [|c3 [|c4 [|c5 [|c6 ?]]]]]]; try discriminate);
    cbn [map] in H; simplify_eq;
    unfold RegExp.match_here, attachment_re, RegExp.image_ext; simpl;
    repeat match goal with H : _ = RegExp.canon _ |- _ => rewrite <- H; clear H end;
    by vm_compute.
Qed.

(** X8. The pattern of [collectAttachedImages] accepts exactly the strings
    that end in [.gif], [.jpg], [.jpeg] or [.png], in any mix of upper and
    lower case. *)
Theorem attachment_pattern_accepts_image_extensions (s : string) :
  RegExp.test true attachment_re s = true <-> has_image_extension s.
Proof.
  unfold RegExp.test, has_image_extension. split.
  - destruct (RegExp.search true attachment_re (list_ascii_of_string s)) as [x|] eqn:E;
      [|discriminate].
    intros _. apply search_Some_inv in E as (s1 & s2 & Hs & Hm).
    exists s1, s2. split; [done|]. by eapply match_here_attachment_inv.
  - intros (stem & ext & -> & Hext).
    pose proof (search_suffix true attachment_re stem ext
                  (match_here_attachment ext Hext)) as H.
    by destruct (RegExp.search _ _ _).
Qed.

Lemma attached_image_fields data attached image :
  collectAttachedImages_array data = Ok attached ->
  image ∈ attached ->
  exists a u,
    a ∈ items_of data
    /\ peek (post_type a) = VString "attachment"
    /\ i_id image = peek (post_id a)
    /\ i_postId image = peek (post_parent a)
    /\ i_url image = VString u
    /\ peek (attachment_url a) = VString u
    /\ RegExp.test true attachment_re u = true.
Proof.
  intros H Hin. apply collectAttachedImages_array_Ok in H. subst attached.
  apply list_elem_of_In, in_map_iff in Hin as (a & <- & Ha).
  apply filter_In in Ha as [Ha Htest]. apply filter_In in Ha as [Ha Htype].
  simpl. destruct (peek (attachment_url a)) as [| |u|n] eqn:Hu;
    try (by vm_compute in Htest).
  - exists a, u. repeat split; try done; [by apply list_elem_of_In|].
    unfold includes_str in Htype. destruct (peek (post_type a)) as [| |t|]; try done.
    apply bool_decide_eq_true, list_elem_of_singleton in Htype. by subst.
  - unfold peek in Hu. by destruct (attachment_url a) as [[|??]|].
Qed.

(** X9. Every image that [collectAttachedImages] returns comes from an
    item of type [attachment]: its [id] is that item's [post_id], its
    [postId] the item's [post_parent], and its [url] the item's
    [attachment_url], a string that ends in an image extension. *)
Theorem attached_images_are_image_attachments data attached image :
  collectAttachedImages_array data = Ok attached ->
  image ∈ attached ->
  exists a u,
    a ∈ items_of data
    /\ peek (post_type a) = VString "attachment"
    /\ i_id image = peek (post_id a)
    /\ i_postId image = peek (post_parent a)
    /\ i_url image = VString u
    /\ peek (attachment_url a) = VString u
    /\ has_image_extension u.
Proof.
  intros H Hin.
  destruct (attached_image_fields _ _ _ H Hin) as (a & u & ? & ? & ? & ? & ? & ? & Ht).
  exists a, u. repeat split; try done.
  unfold RegExp.test in Ht.
  destruct (RegExp.search true attachment_re (list_ascii_of_string u)) as [x|] eqn:E;
    [|discriminate].
  apply search_Some_inv in E as (s1 & s2 & Hs & Hm).
  exists s1, s2. split; [done|]. by eapply match_here_attachment_inv.
Qed.

Lemma matchAll_without_lt (body : string) :
  "<"%char ∉ list_ascii_of_string body -> RegExp.matchAll true img_re body = [].
Proof.
  intros Hno. unfold RegExp.matchAll. cbn [RegExp.matchAll_go].
  rewrite <- (app_nil_r (list_ascii_of_string body)).
  by rewrite search_img_skip.
Qed.

(** X10. An item whose body holds no [<] gives no scraped image, whatever
    its link is. *)
Theorem scrapePost_without_markup post body :
  post_id post <> None ->
  link post <> None ->
  index0 (encoded post) = Ok (VString body) ->
  "<"%char ∉ list_ascii_of_string body ->
  scrapePost post = Ok [].
Proof.
  intros Hid Hlink Hbody Hno. unfold scrapePost. rewrite Hbody.
  destruct (post_id post) as [[|??]|]; [| |done];
    (destruct (link post) as [[|??]|]; [| |done]); simpl;
    by rewrite matchAll_without_lt.
Qed.

Lemma mapM_Throw {A B} (f : A -> Result B) (l : list A) (x : A) (r : list B) :
  x ∈ l -> mapM_ f l = Ok r -> exists y, f x = Ok y.
Proof.
  intros Hx H. apply mapM_Ok in H. apply list_elem_of_lookup in Hx as [i Hi].
  destruct (Forall2_lookup_l _ _ _ _ _ H Hi) as (y & _ & Hy). eauto.
Qed.

(** X11. Scraped-image discovery reads every item of a configured type,
    drafts and trashed items too: one such item with an image in its
    body and an empty link, against which no URL can be resolved, makes it
    fail. *)
Theorem collectScrapedImages_fails_on_empty_link data config it body :
  it ∈ items_of data ->
  type_selected config it = true ->
  post_id it <> None ->
  index0 (encoded it) = Ok (VString body) ->
  RegExp.matchAll true img_re body <> [] ->
  index0 (link it) = Ok (VString "") ->
  forall images, collectScrapedImages_array data config <> Ok images.
Proof.
  intros Hin Hsel Hid Hbody Hmatch Hlink images H.
  unfold collectScrapedImages_array in H. repeat inv_bind H.
  apply getItemsOfTypes_Ok in E as [-> _].
  assert (it ∈ List.filter
            (fun it => includes_str (split "," (postTypes config)) (peek (post_type it)))
            (items_of data)) as Hit
    by (apply list_elem_of_In, filter_In; split; [by apply list_elem_of_In | done]).
  destruct (mapM_Throw _ _ _ _ Hit E0) as [imgs Himgs].
  unfold scrapePost in Himgs. rewrite Hbody, Hlink in Himgs.
  destruct (index0 (post_id it)); [|discriminate]. simpl in Himgs.
  destruct (RegExp.matchAll true img_re body) as [|m1 others]; [done|].
  simpl in Himgs. discriminate.
Qed.

(** ** The merge, further *)

Lemma same_but_images_store posts st :
  Forall2 same_but_images posts st ->
  forall i, content <$> st !! i = content <$> posts !! i.
Proof.
  intros H i. destruct (posts !! i) as [p|] eqn:Hp.
  - destruct (Forall2_lookup_l _ _ _ _ _ H Hp) as (q & -> & Hs). simpl.
    f_equal. unfold same_but_images in Hs. tauto.
  - apply lookup_ge_None in Hp. rewrite (Forall2_length _ _ _ H) in Hp.
    apply lookup_ge_None in Hp. by rewrite Hp.
Qed.

Lemma mergeImage_store lk posts st image st' :
  Forall2 same_but_images posts st ->
  mergeImage decode lk st image = Ok st' ->
  Forall2 same_but_images posts st'.
Proof.
  intros H Hst. apply mergeImage_Ok in Hst as ->.
  apply Forall2_same_length_lookup. split.
  - rewrite length_imap. by eapply Forall2_length.
  - intros i p q Hp Hq. rewrite list_lookup_imap in Hq.
    destruct (Forall2_lookup_l _ _ _ _ _ H Hp) as (q0 & Hq0 & Hs).
    rewrite Hq0 in Hq. simpl in Hq. injection Hq as <-.
    destruct (bool_decide _); [|done].
    eapply same_but_images_trans; [exact Hs | apply merged_post_same].
Qed.

(** One step of the loop succeeds exactly on a mergeable image. *)
Lemma mergeImage_succeeds posts st image :
  Forall2 same_but_images posts st ->
  (exists st', mergeImage decode (build_lookup posts) st image = Ok st')
  <-> mergeable decode posts image.
Proof.
  intros H. unfold mergeable, cover_name_found, owner, mergeImage.
  rewrite (lookup_get_content posts st) by (by apply same_but_images_store).
  destruct (lookup_get posts (build_lookup posts) (toPropertyKey (i_postId image)))
    as [i| |] eqn:Hl.
  - destruct (st !! i) as [q|] eqn:Hq.
    + destruct (Forall2_lookup_r _ _ _ _ _ H Hq) as (p & Hp & Hs).
      assert (m_coverImageId (meta q) = m_coverImageId (meta p)) as ->
        by (unfold same_but_images in Hs; tauto).
      split.
      * intros [st' Hst]. split; [done|].
        intros i' p' [= <-] Hp' Hc. rewrite Hp in Hp'. injection Hp' as <-.
        unfold is_cover_of in Hc. rewrite Hc in Hst.
        destruct (getFilenameFromUrl decode (i_url image)) as [name|];
          [by exists name | discriminate].
      * intros [_ Hname].
        destruct (strict_eq (i_id image) (m_coverImageId (meta p))) eqn:Hc; [|eauto].
        destruct (Hname i p eq_refl Hp Hc) as [name ->]. simpl. eauto.
    + split; [|eauto]. intros _. split; [done|].
      intros i' p' [= <-] Hp'. exfalso.
      apply lookup_ge_None in Hq. rewrite <- (Forall2_length _ _ _ H) in Hq.
      apply lookup_ge_None in Hq. congruence.
  - split; [by intros [? ?] | by intros [? _]].
  - split; [|eauto]. intros _. split; [done | discriminate].
Qed.

Lemma forEach_mergeImage_succeeds posts st images :
  Forall2 same_but_images posts st ->
  (exists st', forEachM (mergeImage decode (build_lookup posts)) images st = Ok st')
  <-> Forall (mergeable decode posts) images.
Proof.
  revert st. induction images as [|image images IH]; intros st H; simpl.
  - split; [constructor | eauto].
  - rewrite Forall_cons. rewrite <- (mergeImage_succeeds posts st image H). split.
    + intros [st' Hst]. inv_bind Hst. split; [eauto|].
      apply (IH a); [by eapply mergeImage_store | eauto].
    + intros [[st1 Hst1] Hrest]. rewrite Hst1. simpl.
      apply (IH st1); [by eapply mergeImage_store | done].
Qed.

Lemma Forall2_same_but_images_refl posts : Forall2 same_but_images posts posts.
Proof. induction posts; constructor; [apply same_but_images_refl | done]. Qed.

(** X12. The merge has two places where it can throw, and returns
    exactly when no image reaches either: no image has a [postId] for
    which the lookup gives an inherited value that is no post, and for
    every image that is the cover image of the post that owns it the
    file-name helper returns a name for its URL. *)
Theorem mergeImagesIntoPosts_succeeds images posts :
  (exists posts', mergeImagesIntoPosts decode images posts = Ok posts')
  <-> Forall (fun image =>
                lookup_get posts (build_lookup posts) (toPropertyKey (i_postId image))
                <> RForeign
                /\ forall i p, owner posts image = Some i -> posts !! i = Some p ->
                               is_cover_of p image = true ->
                               exists name,
                                 getFilenameFromUrl decode (i_url image) = Ok name)
             images.
Proof.
  unfold mergeImagesIntoPosts.
  apply (forEach_mergeImage_succeeds posts posts images),
    Forall2_same_but_images_refl.
Qed.

Lemma build_lookup_keys (posts posts' : list Post) :
  Forall2 (fun p q => post_key p = post_key q) posts posts' ->
  build_lookup posts = build_lookup posts'.
Proof.
  unfold build_lookup. generalize ({| own := ∅; proto := None |}).
  assert (forall (h : nat -> nat) lk,
             Forall2 (fun p q => post_key p = post_key q) posts posts' ->
             fold_left (fun lk '(i, p) => lookup_set lk (toPropertyKey (m_id (meta p))) i)
               (imap (fun i p => (h i, p)) posts) lk
             = fold_left (fun lk '(i, p) => lookup_set lk (toPropertyKey (m_id (meta p))) i)
                 (imap (fun i p => (h i, p)) posts') lk) as Hgen.
  { intros h lk H. revert h lk.
    induction H as [|p q posts posts' Hk _ IH]; intros h lk; simpl; [done|].
    unfold post_key in Hk. rewrite Hk. apply (IH (h ∘ S)). }
  intros lk H. apply (Hgen (fun i => i) lk H).
Qed.

Lemma same_but_images_keys posts st :
  Forall2 same_but_images posts st ->
  Forall2 (fun p q => post_key p = post_key q) posts st.
Proof.
  intros H. eapply Forall2_impl; [exact H|].
  intros p q Hs. unfold post_key, same_but_images in *.
  destruct Hs as (-> & _). done.
Qed.

Lemma mergeImagesIntoPosts_store images posts posts' :
  mergeImagesIntoPosts decode images posts = Ok posts' ->
  Forall2 same_but_images posts posts'.
Proof.
  intros H. apply mergeImagesIntoPosts_Ok in H as ->.
  apply Forall2_same_length_lookup. split; [by rewrite length_imap|].
  intros i p p' Hp. rewrite list_lookup_imap, Hp. simpl. intros [= <-].
  apply merged_posts_same.
Qed.

(** X13. Merging two batches of images one after the other is merging
    their concatenation: the lookup built for the second batch, from the
    posts the first batch left, is the lookup of the first. *)
Theorem mergeImagesIntoPosts_app images1 images2 posts :
  mergeImagesIntoPosts decode (images1 ++ images2) posts =
  bind (mergeImagesIntoPosts decode images1 posts) (mergeImagesIntoPosts decode images2).
Proof.
  destruct (mergeImagesIntoPosts decode images1 posts) as [posts1|e] eqn:H1.
  - pose proof (mergeImagesIntoPosts_store _ _ _ H1) as Hs.
    unfold mergeImagesIntoPosts in *. rewrite forEachM_app, H1. simpl.
    by rewrite (build_lookup_keys posts posts1) by (by apply same_but_images_keys).
  - unfold mergeImagesIntoPosts in *. by rewrite forEachM_app, H1.
Qed.

Lemma build_lookup_last posts :
  (forall key i j q, own (build_lookup posts) !! key = Some i ->
                     i < j -> posts !! j = Some q -> post_key q <> key)
  /\ (forall i j q, proto (build_lookup posts) = Some i ->
                    i < j -> posts !! j = Some q -> post_key q <> "__proto__")
  /\ (forall key i, own (build_lookup posts) !! key = Some i -> i < length posts)
  /\ (forall i, proto (build_lookup posts) = Some i -> i < length posts)
  /\ (forall key i, own (build_lookup posts) !! key = Some i -> key <> "__proto__").
Proof.
  induction posts as [|p posts (IHo & IHp & IHlo & IHlp & IHk)] using rev_ind.
  - repeat split; try discriminate;
      intros key i; change (own (build_lookup [])) with (∅ : gmap string nat);
      by rewrite lookup_empty.
  - rewrite build_lookup_snoc. unfold lookup_set. rewrite length_app. simpl.
    case_bool_decide as Hk; simpl; repeat split.
    + intros key i j q Hi Hij Hq.
      destruct (decide (j = length posts)) as [->|Hj].
      * rewrite lookup_app_r, Nat.sub_diag in Hq by done. injection Hq as <-.
        unfold post_key. rewrite Hk. intros <-. by apply (IHk _ _ Hi).
      * apply (IHo key i j q Hi Hij). rewrite lookup_app_l in Hq; [done|].
        apply lookup_lt_Some in Hq. rewrite length_app in Hq. simpl in Hq. lia.
    + intros i j q [= <-] Hij Hq. apply lookup_lt_Some in Hq.
      rewrite length_app in Hq. simpl in Hq. lia.
    + intros key i Hi. specialize (IHlo key i Hi). lia.
    + intros i [= <-]. lia.
    + exact IHk.
    + intros key i j q. rewrite lookup_insert. case_decide as Hd.
      * intros [= <-] Hij Hq. apply lookup_lt_Some in Hq.
        rewrite length_app in Hq. simpl in Hq. lia.
      * intros Hi Hij Hq.
        destruct (decide (j = length posts)) as [->|Hj].
        -- rewrite lookup_app_r, Nat.sub_diag in Hq by done. injection Hq as <-.
           unfold post_key. congruence.
        -- apply (IHo key i j q Hi Hij). rewrite lookup_app_l in Hq; [done|].
           apply lookup_lt_Some in Hq. rewrite length_app in Hq. simpl in Hq. lia.
    + intros i j q Hi Hij Hq.
      destruct (decide (j = length posts)) as [->|Hj].
      * rewrite lookup_app_r, Nat.sub_diag in Hq by done. injection Hq as <-.
        by unfold post_key.
      * apply (IHp i j q Hi Hij). rewrite lookup_app_l in Hq; [done|].
        apply lookup_lt_Some in Hq. rewrite length_app in Hq. simpl in Hq. lia.
    + intros key i. rewrite lookup_insert. case_decide.
      * intros [= <-]. lia.
      * intros Hi. specialize (IHlo key i Hi). lia.
    + intros i Hi. specialize (IHlp i Hi). lia.
    + intros key i. rewrite lookup_insert. case_decide.
      * intros _. congruence.
      * apply IHk.
Qed.

(** X14. Of several posts with the same [meta.id] only the last one of
    the array receives images: the merge leaves the earlier ones exactly
    as they were. *)
Theorem mergeImagesIntoPosts_last_write_wins images posts posts' i j p q :
  mergeImagesIntoPosts decode images posts = Ok posts' ->
  posts !! i = Some p ->
  posts !! j = Some q ->
  i < j ->
  post_key p = post_key q ->
  posts' !! i = Some p.
Proof.
  intros H Hp Hq Hij Hkey. apply mergeImagesIntoPosts_Ok in H as ->.
  rewrite list_lookup_imap, Hp. simpl. f_equal.
  rewrite filter_nil_Forall; [done|].
  apply Forall_forall. intros image _.
  unfold owned_by. apply bool_decide_eq_false_2. intros Ho.
  destruct (owner_sound _ _ _ Ho) as (p0 & Hp0 & Hm).
  rewrite Hp in Hp0. injection Hp0 as <-. unfold matches_post in Hm.
  destruct (build_lookup_last posts) as (Hlo & Hlp & _).
  unfold owner, lookup_get in Ho.
  case_bool_decide as Hk.
  - destruct (proto (build_lookup posts)) as [i0|] eqn:Hi0; [|done].
    injection Ho as ->. apply (Hlp i j q eq_refl Hij Hq).
    unfold post_key in *. congruence.
  - destruct (own (build_lookup posts) !! toPropertyKey (i_postId image))
      as [i0|] eqn:Hi0.
    + injection Ho as ->. apply (Hlo _ i j q Hi0 Hij Hq).
      unfold post_key in *. congruence.
    + destruct (proto (build_lookup posts)); repeat case_match; done.
Qed.

(** X15. The merge only appends to [meta.imageUrls]: what a post held
    before is a prefix of what it holds after, and a list without
    duplicates stays without duplicates. *)
Theorem mergeImagesIntoPosts_appends images posts posts' i p p' :
  mergeImagesIntoPosts decode images posts = Ok posts' ->
  posts !! i = Some p ->
  posts' !! i = Some p' ->
  m_imageUrls (meta p) `prefix_of` m_imageUrls (meta p')
  /\ (NoDup (m_imageUrls (meta p)) -> NoDup (m_imageUrls (meta p'))).
Proof.
  intros H Hp Hp'. apply mergeImagesIntoPosts_Ok in H as ->.
  rewrite list_lookup_imap, Hp in Hp'. injection Hp' as <-.
  rewrite merged_posts_imageUrls, fold_add_url. split.
  - by apply prefix_app_r.
  - intros Hnd. apply NoDup_app. split; [done|]. split.
    + intros u Hu Hf. apply list_elem_of_In, filter_In in Hf as [_ Hf].
      apply negb_true_iff in Hf. unfold includes in Hf.
      by apply bool_decide_eq_false in Hf.
    + apply NoDup_ListNoDup, List.NoDup_filter, NoDup_ListNoDup,
        NoDup_first_occurrences.
Qed.

Lemma post_eq p q :
  same_but_images p q ->
  m_imageUrls (meta q) = m_imageUrls (meta p) ->
  f_coverImage (frontmatter q) = f_coverImage (frontmatter p) ->
  q = p.
Proof.
  destruct p as [[] [] ?], q as [[] [] ?]. unfold same_but_images. simpl.
  intros H ? ?. repeat match goal with H : _ /\ _ |- _ => destruct H end.
  by subst.
Qed.

Lemma fold_add_url_known urls acc :
  (forall u, u ∈ urls -> u ∈ acc) -> fold_left add_url urls acc = acc.
Proof.
  induction urls as [|u urls IH]; simpl; intros H; [done|].
  unfold add_url at 2. unfold includes.
  rewrite bool_decide_eq_true_2 by (apply H; by left).
  apply IH. intros v Hv. apply H. by right.
Qed.

Lemma fold_add_url_holds urls acc u :
  u ∈ urls -> u ∈ fold_left add_url urls acc.
Proof.
  intros Hu. rewrite fold_add_url, elem_of_app.
  destruct (decide (u ∈ acc)) as [|Hn]; [by left | right].
  apply list_elem_of_In, filter_In. split.
  - by apply list_elem_of_In, first_occurrences_elem.
  - unfold includes. by rewrite bool_decide_eq_false_2.
Qed.

Lemma merged_posts_idem images p :
  (forall image, image ∈ images -> is_cover_of p image = true ->
                 exists name, getFilenameFromUrl decode (i_url image) = Ok name) ->
  fold_left (merged_post decode) images (fold_left (merged_post decode) images p) =
  fold_left (merged_post decode) images p.
Proof.
  intros Hnames.
  pose proof (merged_posts_same decode images p) as Hs.
  set (q := fold_left (merged_post decode) images p) in *.
  assert (forall image, is_cover_of q image = is_cover_of p image) as Hcov.
  { intros image. unfold is_cover_of. unfold same_but_images in Hs.
    destruct Hs as (_ & _ & -> & _). done. }
  apply post_eq.
  - apply merged_posts_same.
  - rewrite merged_posts_imageUrls. apply fold_add_url_known.
    intros u Hu. subst q. rewrite merged_posts_imageUrls. by apply fold_add_url_holds.
  - pose proof (merged_posts_coverImage decode images p Hnames) as H1.
    pose proof (merged_posts_coverImage decode images q) as H2.
    rewrite (filter_ext _ _ Hcov) in H2.
    specialize (H2 ltac:(intros image Hi Hc; rewrite Hcov in Hc; by apply Hnames)).
    fold q in H1.
    destruct (last (List.filter (is_cover_of p) images)); congruence.
Qed.

(** X16. Merging the same images a second time changes nothing: on the
    posts a merge has left, the merge of the same images returns them as
    they are. *)
Theorem mergeImagesIntoPosts_idempotent images posts posts' :
  mergeImagesIntoPosts decode images posts = Ok posts' ->
  mergeImagesIntoPosts decode images posts' = Ok posts'.
Proof.
  intros H. pose proof (mergeImagesIntoPosts_store _ _ _ H) as Hs.
  pose proof (same_but_images_store _ _ Hs) as Hc.
  assert (Forall (mergeable decode posts) images) as Hall.
  { apply (forEach_mergeImage_succeeds posts posts images
             (Forall2_same_but_images_refl posts)). eauto. }
  apply (forEach_mergeImage_succeeds posts posts' images Hs) in Hall as [posts'' H2].
  unfold mergeImagesIntoPosts.
  rewrite <- (build_lookup_keys posts posts') by (by apply same_but_images_keys).
  rewrite H2. f_equal.
  pose proof (forEach_mergeImage_Ok _ _ _ _ _ H2) as ->.
  unfold mergeImagesIntoPosts in H.
  pose proof (forEach_mergeImage_Ok _ _ _ _ _ H) as Hposts'.
  apply list_eq. intros i. rewrite list_lookup_imap.
  rewrite Hposts' at 1 2. rewrite list_lookup_imap.
  destruct (posts !! i) as [p|] eqn:Hp; simpl; [|done]. f_equal.
  erewrite filter_ext;
    [|intros image; by rewrite (lookup_get_content posts posts') by done].
  apply merged_posts_idem.
  intros image Hin Hcov. apply list_elem_of_In, filter_In in Hin as [Hin Ho].
  apply bool_decide_eq_true in Ho.
  eapply forEach_mergeImage_names; [exact H | by apply list_elem_of_In | done..].
Qed.

(** ** The pipeline, further *)

Lemma parseFilePromise_stages data config out posts attached scraped :
  collectPosts_array getPostContent data config = Ok posts ->
  (if saveAttachedImages config
   then collectAttachedImages_array data = Ok attached else attached = []) ->
  (if saveScrapedImages config
   then collectScrapedImages_array data config = Ok scraped else scraped = []) ->
  parseFilePromise getPostContent decode data config out =
  (mergeImagesIntoPosts decode (attached ++ scraped) posts,
   out ++ [String "010" "Parsing..."; pretty (length posts) +:+ " posts found."]
       ++ (if saveAttachedImages config
           then [pretty (length attached) +:+ " attached images found."] else [])
       ++ (if saveScrapedImages config
           then [pretty (length scraped) +:+ " images scraped from post body content."]
           else [])).
Proof.
  intros Hp Ha Hs.
  unfold parseFilePromise, collectImages, collectPosts, collectAttachedImages,
    collectScrapedImages, bindM, liftM, console_log, retM.
  rewrite Hp.
  destruct (saveAttachedImages config), (saveScrapedImages config);
    rewrite ?Ha, ?Hs; subst; simpl;
    rewrite <- ?app_assoc; simpl; rewrite ?app_nil_r; reflexivity.
Qed.

(** X17. When the pipeline returns, what it has written is its first
    line, the number of posts it returns, and for each image source that
    is switched on the number of images that source gave, in this
    order. *)
Theorem parseFilePromise_console data config out posts' out' :
  parseFilePromise getPostContent decode data config out = (Ok posts', out') ->
  exists attached scraped,
    (if saveAttachedImages config
     then collectAttachedImages_array data = Ok attached else attached = [])
    /\ (if saveScrapedImages config
        then collectScrapedImages_array data config = Ok scraped else scraped = [])
    /\ out' =
       out ++ [String "010" "Parsing..."; pretty (length posts') +:+ " posts found."]
           ++ (if saveAttachedImages config
               then [pretty (length attached) +:+ " attached images found."] else [])
           ++ (if saveScrapedImages config
               then [pretty (length scraped) +:+ " images scraped from post body content."]
               else []).
Proof.
  intros H. pose proof H as H0.
  apply parseFilePromise_Ok in H0 as (posts & att & scr & Hp & Ha & Hs & Hm).
  rewrite (parseFilePromise_stages _ _ _ _ _ _ Hp Ha Hs) in H.
  injection H as _ <-. exists att, scr. repeat split; try done.
  by rewrite (mergeImagesIntoPosts_length _ _ _ _ Hm).
Qed.

Lemma scrapePost_urls post images :
  scrapePost post = Ok images -> Forall (fun image => is_string (i_url image)) images.
Proof.
  unfold scrapePost. intros H. repeat inv_bind H.
  destruct a0; try discriminate. apply mapM_Ok in H.
  induction H as [|m1 image ? ? Hm _ IH]; [constructor|].
  constructor; [|done]. inv_bind Hm. injection Hm as <-. simpl. by eexists.
Qed.

Lemma collectScrapedImages_urls data config scraped :
  collectScrapedImages_array data config = Ok scraped ->
  Forall (fun image => is_string (i_url image)) scraped.
Proof.
  unfold collectScrapedImages_array. intros H. repeat inv_bind H.
  injection H as <-. apply mapM_Ok in E0. apply Forall_concat. clear E.
  induction E0 as [|post images ? ? Hp _ IH]; [constructor|].
  constructor; [by eapply scrapePost_urls | done].
Qed.

Lemma pipeline_image_urls data config attached scraped :
  (if saveAttachedImages config
   then collectAttachedImages_array data = Ok attached else attached = []) ->
  (if saveScrapedImages config
   then collectScrapedImages_array data config = Ok scraped else scraped = []) ->
  Forall (fun image => is_string (i_url image)) (attached ++ scraped).
Proof.
  intros Ha Hs. apply Forall_app. split.
  - destruct (saveAttachedImages config); [|subst; constructor].
    apply Forall_forall. intros image Hin.
    destruct (attached_image_fields _ _ _ Ha Hin) as (a & u & _ & _ & _ & _ & Hu & _).
    by exists u.
  - destruct (saveScrapedImages config); [|subst; constructor].
    by eapply collectScrapedImages_urls.
Qed.

(** X18. Every entry of the [meta.imageUrls] of a post of the result is a
    string: an [attachment_url] or a resolved absolute URL, never
    [undefined]. *)
Theorem imageUrls_are_strings data config out posts' out' p' :
  parseFilePromise getPostContent decode data config out = (Ok posts', out') ->
  p' ∈ posts' ->
  Forall is_string (m_imageUrls (meta p')).
Proof.
  intros H Hin.
  apply parseFilePromise_Ok in H as (posts & att & scr & Hp & Ha & Hs & Hm).
  apply list_elem_of_lookup in Hin as [i Hi].
  rewrite (mergeImagesIntoPosts_imageUrls decode (att ++ scr) posts posts' i p').
  - apply Forall_forall. intros u Hu. rewrite first_occurrences_elem in Hu.
    apply list_elem_of_In, in_map_iff in Hu as (image & <- & Himg).
    apply filter_In in Himg as [Himg _].
    pose proof (pipeline_image_urls _ _ _ _ Ha Hs) as Hall.
    rewrite Forall_forall in Hall. by apply Hall, list_elem_of_In.
  - eapply Forall_impl; [by eapply collectPosts_array_fresh|]. by intros ? [? _].
  - done.
  - done.
Qed.

Lemma lookup_get_not_inherited store posts key :
  key ∉ inherited_keys -> lookup_get store (build_lookup posts) key <> RForeign.
Proof.
  intros Hkey. unfold inherited_keys in Hkey. rewrite elem_of_app in Hkey.
  assert (key ∉ Object_prototype_keys) as Hobj by tauto.
  assert (key <> "__proto__") as Hproto.
  { intros ->. apply Hobj. unfold Object_prototype_keys.
    repeat (first [by left | right]). }
  assert (key <> "meta" /\ key <> "frontmatter" /\ key <> "content") as (? & ? & ?).
  { repeat split; intros ->; apply Hkey; right; repeat (first [by left | right]). }
  unfold lookup_get.
  rewrite (bool_decide_eq_false_2 (key = "__proto__")) by done.
  destruct (own (build_lookup posts) !! key); [done|].
  rewrite (bool_decide_eq_false_2 (key ∈ Object_prototype_keys)) by done.
  destruct (proto (build_lookup posts)); [|done].
  by rewrite !bool_decide_eq_false_2 by done.
Qed.

(** X19. When the three collecting stages return, no image has, as its
    [postId], a name that the lookup object can inherit (as none has
    when identifiers are numbers), and the file-name helper returns a
    name for the URL of every attached image that is the cover image of
    the post that owns it, the pipeline returns its posts.  Nothing is
    asked of the scraped images: none is a cover image, so the helper is
    never called on them. *)
Theorem parseFilePromise_returns data config out posts attached scraped :
  collectPosts_array getPostContent data config = Ok posts ->
  (if saveAttachedImages config
   then collectAttachedImages_array data = Ok attached else attached = []) ->
  (if saveScrapedImages config
   then collectScrapedImages_array data config = Ok scraped else scraped = []) ->
  Forall (fun image => toPropertyKey (i_postId image) ∉ inherited_keys)
         (attached ++ scraped) ->
  Forall (fun image =>
            forall i p, owner posts image = Some i -> posts !! i = Some p ->
                        is_cover_of p image = true ->
                        exists name, getFilenameFromUrl decode (i_url image) = Ok name)
         attached ->
  exists posts' out',
    parseFilePromise getPostContent decode data config out = (Ok posts', out').
Proof.
  intros Hp Ha Hs Hkeys Hnames.
  rewrite (parseFilePromise_stages _ _ _ _ _ _ Hp Ha Hs).
  assert (Forall (mergeable decode posts) (attached ++ scraped)) as Hall.
  { rewrite Forall_forall in Hkeys. apply Forall_forall. intros image Hin. split.
    - by apply lookup_get_not_inherited, Hkeys.
    - apply elem_of_app in Hin as [Hin|Hin].
      + rewrite Forall_forall in Hnames. exact (Hnames image Hin).
      + intros i p _ Hpi Hcov. exfalso.
        destruct (saveScrapedImages config); [|subst; by apply elem_of_nil in Hin].
        apply collectScrapedImages_sentinel in Hs. rewrite Forall_forall in Hs.
        apply collectPosts_array_Ok in Hp.
        destruct (Forall2_lookup_r _ _ _ _ _ Hp Hpi) as (it & _ & Hit).
        apply extractPost_coverImageId in Hit.
        apply getPostCoverImageId_string_or_undefined in Hit.
        rewrite (sentinel_is_no_cover p image) in Hcov; [done | by apply Hs | done]. }
  apply (forEach_mergeImage_succeeds posts posts _ (Forall2_same_but_images_refl posts))
    in Hall as [posts' H].
  unfold mergeImagesIntoPosts. rewrite H. eauto.
Qed.

End Further.

(** ** The further properties on the example documents *)

Ltac elem_of_concrete := apply list_elem_of_In; vm_compute; tauto.
Ltac not_elem_of_concrete :=
  let H := fresh in
  intros H; apply list_elem_of_In in H; vm_compute in H; intuition discriminate.

Lemma getPostCoverImageId_first_thumbnail_witness :
  getPostCoverImageId post_two_thumbnails =
  match first_thumbnail [thumbnail "42"; thumbnail "43"] with
  | Some pm => index0 (meta_value pm)
  | None => Ok VUndefined
  end
  /\ getPostCoverImageId post_two_thumbnails = Ok (VString "42").
Proof.
  split; [|reflexivity].
  apply (getPostCoverImageId_first_thumbnail post_two_thumbnails
           [thumbnail "42"; thumbnail "43"]).
  - reflexivity.
  - repeat first [apply Forall_nil_2 | apply Forall_cons_2]; discriminate.
Defined.

Lemma collectPosts_fails_on_missing_field_witness :
  selected config_default post_without_description = true
  /\ forall posts out',
       collectPosts plain_content (document [post_hello; post_without_description])
         config_default [] <> (Ok posts, out').
Proof.
  split; [reflexivity|].
  apply (collectPosts_fails_on_missing_field plain_content
           (document [post_hello; post_without_description]) config_default []
           post_without_description).
  - elem_of_concrete.
  - reflexivity.
  - elem_of_concrete.
Defined.

Lemma tags_empty_without_tags_elements_witness :
  Forall (fun p => f_tags (frontmatter p) = []) example_result.
Proof.
  apply (tags_empty_without_tags_elements plain_content no_decode example_document
           config_default [] example_result example_console).
  - repeat first [apply Forall_nil_2 | apply Forall_cons_2]; reflexivity.
  - vm_compute. reflexivity.
Defined.

Lemma parseFilePromise_without_items_witness :
  parseFilePromise plain_content no_decode empty_export config_default [] =
  (Throw TypeError, [] ++ [String "010" "Parsing..."]).
Proof.
  apply (parseFilePromise_without_items plain_content no_decode empty_export
           config_default []).
  intros items. vm_compute. discriminate.
Defined.

Lemma attached_images_are_image_attachments_witness :
  exists a u,
    a ∈ items_of example_document
    /\ peek (post_type a) = VString "attachment"
    /\ i_id (image_ref (VString "43") "3" "https://example.com/wp-content/uploads/a.png")
       = peek (post_id a)
    /\ i_postId (image_ref (VString "43") "3" "https://example.com/wp-content/uploads/a.png")
       = peek (post_parent a)
    /\ i_url (image_ref (VString "43") "3" "https://example.com/wp-content/uploads/a.png")
       = VString u
    /\ peek (attachment_url a) = VString u
    /\ has_image_extension u.
Proof.
  apply (attached_images_are_image_attachments example_document example_attached).
  - vm_compute. reflexivity.
  - elem_of_concrete.
Defined.

Lemma scrapePost_without_markup_witness :
  scrapePost post_plain = Ok [].
Proof.
  apply (scrapePost_without_markup post_plain "no markup here").
  - discriminate.
  - discriminate.
  - reflexivity.
  - not_elem_of_concrete.
Defined.

Lemma collectScrapedImages_fails_on_empty_link_witness :
  status_kept draft_without_link = false
  /\ forall images,
       collectScrapedImages_array (document [post_hello; draft_without_link])
         config_default <> Ok images.
Proof.
  split; [reflexivity|].
  apply (collectScrapedImages_fails_on_empty_link
           (document [post_hello; draft_without_link]) config_default
           draft_without_link ("<p>" +:+ img_tag "later.png" +:+ "</p>")).
  - elem_of_concrete.
  - reflexivity.
  - discriminate.
  - reflexivity.
  - vm_compute. discriminate.
  - reflexivity.
Defined.

Lemma mergeImagesIntoPosts_last_write_wins_witness :
  duplicate_result !! 0 = Some (post_record "1" (VString "42")).
Proof.
  apply (mergeImagesIntoPosts_last_write_wins no_decode duplicate_images duplicate_posts
           duplicate_result 0 1 (post_record "1" (VString "42"))
           (post_record "1" VUndefined)).
  - vm_compute. reflexivity.
  - reflexivity.
  - reflexivity.
  - lia.
  - reflexivity.
Defined.

Lemma mergeImagesIntoPosts_appends_witness :
  Forall2 (fun p p' => m_imageUrls (meta p) `prefix_of` m_imageUrls (meta p')
                       /\ (NoDup (m_imageUrls (meta p)) ->
                           NoDup (m_imageUrls (meta p'))))
          example_result example_result_more.
Proof.
  apply Forall2_same_length_lookup_2; [reflexivity|].
  intros i p p' Hp Hp'.
  apply (mergeImagesIntoPosts_appends no_decode more_images example_result
           example_result_more i p p').
  - vm_compute. reflexivity.
  - exact Hp.
  - exact Hp'.
Defined.

Lemma mergeImagesIntoPosts_idempotent_witness :
  mergeImagesIntoPosts no_decode example_images example_result = Ok example_result.
Proof.
  apply (mergeImagesIntoPosts_idempotent no_decode example_images example_posts).
  vm_compute. reflexivity.
Defined.

Lemma parseFilePromise_console_witness :
  exists attached scraped,
    (if saveAttachedImages config_default
     then collectAttachedImages_array example_document = Ok attached else attached = [])
    /\ (if saveScrapedImages config_default
        then collectScrapedImages_array example_document config_default = Ok scraped
        else scraped = [])
    /\ example_console =
       [] ++ [String "010" "Parsing..."; pretty (length example_result) +:+ " posts found."]
          ++ (if saveAttachedImages config_default
              then [pretty (length attached) +:+ " attached images found."] else [])
          ++ (if saveScrapedImages config_default
              then [pretty (length scraped) +:+ " images scraped from post body content."]
              else []).
Proof.
  apply (parseFilePromise_console plain_content no_decode example_document config_default
           [] example_result example_console).
  vm_compute. reflexivity.
Defined.

Lemma imageUrls_are_strings_witness :
  Forall (fun p' => Forall is_string (m_imageUrls (meta p'))) example_result.
Proof.
  apply Forall_forall. intros p'.
  apply (imageUrls_are_strings plain_content no_decode example_document config_default
           [] example_result example_console).
  vm_compute. reflexivity.
Defined.

Lemma parseFilePromise_returns_witness :
  exists posts' out',
    parseFilePromise plain_content no_decode example_document config_default [] =
    (Ok posts', out').
Proof.
  apply (parseFilePromise_returns plain_content no_decode example_document config_default
           [] example_posts example_attached example_scraped).
  - vm_compute. reflexivity.
  - vm_compute. reflexivity.
  - vm_compute. reflexivity.
  - repeat first [apply Forall_nil_2 | apply Forall_cons_2]; not_elem_of_concrete.
  - repeat first [apply Forall_nil_2 | apply Forall_cons_2];
      intros i p _ _ _; eexists; reflexivity.
Defined.

Lemma collectPosts_returns_witness :
  exists posts,
    collectPosts plain_content example_document config_default [] =
    (Ok posts, [] ++ [pretty (length posts) +:+ " posts found."]).
Proof.
  apply (collectPosts_returns plain_content example_document config_default []
           (items_of example_document)).
  - reflexivity.
  - repeat first [apply Forall_nil_2 | apply Forall_cons_2]; discriminate.
  - repeat first [apply Forall_nil_2 | apply Forall_cons_2]; intros _; discriminate.
  - repeat first [apply Forall_nil_2 | apply Forall_cons_2]; intros Hsel;
      first [ discriminate Hsel | eexists; vm_compute; reflexivity ].
Defined.

Lemma mergeImagesIntoPosts_drops_orphan_witness :
  mergeImagesIntoPosts no_decode ([] ++ image_of_missing_post :: example_images)
    example_posts =
  mergeImagesIntoPosts no_decode ([] ++ example_images) example_posts.
Proof.
  apply (mergeImagesIntoPosts_drops_orphan no_decode [] image_of_missing_post
           example_images example_posts).
  - intros p Hp. apply list_elem_of_In in Hp. vm_compute in Hp.
    unfold matches_post. intuition (subst; discriminate).
  - not_elem_of_concrete.
Defined.
